(** * Resistance synthesis on the NI PXI-2722: a shallow embedding

    This development embeds [resistance_manager.py] (classes
    [ResistanceManager] and [SubsetSum]) and the driver calls of
    [switch_manager.py], and states the properties of the decomposition
    engine, the relay encoder and the channel clearing.

    Numbers.  The Python code is written for any numbers and is run on
    ints and floats.  It is embedded twice.

    - Over exact numbers, as canonical rationals [Qc], whose Leibniz
      equality is the equality of Python dictionary keys.  This is the
      code on Python ints, and on floats wherever every operation it
      performs is exact: in particular on the whole path from a request
      in [0, 16000] through quantization and the solver over the
      catalog, where every value is a multiple of 1/4 of magnitude below
      2^17.  The statements about the solver on arbitrary lists carry
      the hypothesis [exact_inputs], which delimits inputs on which
      binary64 subtraction and addition are exact and the recursion
      stays far from the interpreter's limit.

    - Over IEEE 754 binary64 ([Float64], [SubsetSum64]), with the
      arithmetic of the standard library's [SpecFloat]; this is the code
      on arbitrary floats, where subtraction rounds. *)

From Stdlib Require Import QArith Qcanon ZArith Lia SpecFloat.
From Stdlib Require Qcabs.
From stdpp Require Import gmap strings list fin_maps numbers sorting pretty.
From Equations Require Import Equations.

Local Open Scope Qc_scope.

(** ** Python numbers *)

Module Py.

(** A Python numeric literal [n/d]. *)
Definition num (n : Z) (d : positive) : Qc := Q2Qc (n # d).

(** An integer seen as a number. *)
Definition int (n : Z) : Qc := Qc_of_Z n.

(** [sum(l)]: the fold [((0 + x1) + x2) + ...]. *)
Definition sum (l : list Qc) : Qc := foldl Qcplus 0 l.

(** [floor] of a rational. *)
Definition floor (x : Qc) : Z := (Qnum x / Zpos (Qden x))%Z.

(** [round(x)] with one argument: the nearest integer, a tie going to the
    even neighbour (Python 3). *)
Definition round (x : Qc) : Z :=
  let n := Qnum x in
  let d := Zpos (Qden x) in
  let q := (n / d)%Z in
  match (2 * (n mod d) ?= d)%Z with
  | Lt => q
  | Gt => (q + 1)%Z
  | Eq => if Z.even q then q else (q + 1)%Z
  end.

(** Exceptions that the modelled code can raise. *)
Inductive exn : Type :=
  | IndexError
  | KeyError
  | OverflowError
  | DriverError.

Inductive result (A : Type) : Type :=
  | Ok (a : A)
  | Raise (e : exn).
Global Arguments Ok {A} a.
Global Arguments Raise {A} e.

Global Instance exn_eq_dec : EqDecision exn.
Proof. solve_decision. Defined.
Global Instance result_eq_dec {A} `{EqDecision A} : EqDecision (result A).
Proof. solve_decision. Defined.

(** Converting a number to a float, as ["%.2f" % x] does, raises
    OverflowError when the nearest float is beyond the largest finite
    one, that is for magnitudes from [2^1024 - 2^970] on.  Only an int
    can be that large: a float argument is never rejected. *)
Definition float_overflow (x : Qc) : Prop :=
  int (2 ^ 1024 - 2 ^ 970) ≤ Qcabs.Qcabs x.

Global Instance float_overflow_dec (x : Qc) : Decision (float_overflow x).
Proof. unfold float_overflow. apply _. Defined.

(** ["...%.2f..." % x], of which only the possible exception matters: the
    text is handed to the logger. *)
Definition format_2f (x : Qc) : result unit :=
  if decide (float_overflow x) then Raise OverflowError else Ok ().

(** [l[i]] on a list. *)
Definition getitem {A} (l : list A) (i : nat) : result A :=
  match l !! i with
  | Some a => Ok a
  | None => Raise IndexError
  end.

(** [d[k]] on a dictionary. *)
Definition dict_get {A} (d : gmap Qc A) (k : Qc) : result A :=
  match d !! k with
  | Some a => Ok a
  | None => Raise KeyError
  end.

(** Code that mutates an object [St] and may raise: a state and error
    monad.  An exception leaves the mutations done so far in place. *)
Definition M (St A : Type) : Type := St → result A * St.

Global Instance M_ret {St} : MRet (M St) := λ A a s, (Ok a, s).
Global Instance M_bind {St} : MBind (M St) := λ A B k m s,
  match m s with
  | (Ok a, s') => k a s'
  | (Raise e, s') => (Raise e, s')
  end.

(** A pure, fallible expression evaluated inside [M]. *)
Definition lift {St A} (r : result A) : M St A := λ s, (r, s).

(** [for a in l: body(a)]. *)
Fixpoint for_each {St A} (l : list A) (body : A → M St unit) : M St unit :=
  match l with
  | [] => mret ()
  | a :: l => body a;; for_each l body
  end.


(** Running code that works on one component of a pair of objects. *)
Definition zoom_l {S1 S2 A} (m : M S1 A) : M (S1 * S2) A :=
  λ st, let '(r, s1) := m st.1 in (r, (s1, st.2)).
Definition zoom_r {S1 S2 A} (m : M S2 A) : M (S1 * S2) A :=
  λ st, let '(r, s2) := m st.2 in (r, (st.1, s2)).

End Py.

(** ** class SubsetSum, on exact numbers *)

Module SubsetSum.

(** The memo dictionary, keyed by [(i, target_Sum)]. *)
Abbreviation Memo := (gmap (nat * Qc) nat).

(** [SubsetSum.f]: the memoised count, over exact numbers.  The
    dictionary is mutated in place by the Python code, so it is threaded
    through and returned.  The recursion is as deep as the list is long;
    the interpreter's recursion limit is not modelled, and the
    statements about arbitrary lists bound the length. *)
Equations? f (v_list : list Qc) (i : nat) (target_Sum : Qc) (memo : Memo)
  : nat * Memo by wf (length v_list - i)%nat lt :=
f v_list i target_Sum memo with decide (length v_list ≤ i)%nat := {
  | left _ => (if decide (target_Sum = 0) then 1%nat else 0%nat, memo)
  | right _ with memo !! (i, target_Sum) := {
     | Some count => (count, memo)
     | None =>
        let '(count, memo) := f v_list (i + 1) target_Sum memo in
        let '(count', memo) :=
          f v_list (i + 1) (target_Sum - default 0 (v_list !! i)) memo in
        let count := (count + count')%nat in
        (count, <[(i, target_Sum) := count]> memo) } }.
Proof. all: lia. Qed.

(** The loop state of [SubsetSum.g]. *)
Record g_state (W : Type) : Type := GState {
  subset : list Qc;
  id_subset : list W;
  target_Sum : Qc;
  memo : Memo
}.
Global Arguments GState {W} _ _ _ _.
Global Arguments subset {W} _.
Global Arguments id_subset {W} _.
Global Arguments target_Sum {W} _.
Global Arguments memo {W} _.

(** One iteration of the [for i, (x, y) in enumerate(zip(...))] loop. *)
Definition g_body {W} (v_list : list Qc) (st : g_state W)
    (item : nat * (Qc * W)) : g_state W :=
  let '(i, (x, y)) := item in
  let '(count, memo) := f v_list (i + 1) (target_Sum st - x) (memo st) in
  if decide (0 < count)%nat
  then GState (subset st ++ [x]) (id_subset st ++ [y]) (target_Sum st - x) memo
  else GState (subset st) (id_subset st) (target_Sum st) memo.

(** [SubsetSum.g]: returns [(subset, id_subset)] and the mutated memo. *)
Definition g {W} (v_list : list Qc) (w_list : list W) (target_Sum : Qc)
    (memo : Memo) : (list Qc * list W) * Memo :=
  let st := foldl (g_body v_list) (GState [] [] target_Sum memo)
                  (imap pair (zip v_list w_list)) in
  ((subset st, id_subset st), SubsetSum.memo st).

(** [SubsetSum.get_banks_to_leave_open]. *)
Definition get_banks_to_leave_open (x_list : list Qc) (target : Qc)
  : Qc * list Qc :=
  let memo : Memo := ∅ in
  let '((result, _), _) := g x_list x_list target memo in
  (Py.sum result, result).

End SubsetSum.

(** ** Python floats *)

Module Float64.

(** A float is an IEEE 754 binary64 number. *)
Abbreviation float := spec_float.

Definition prec : Z := 53.
Definition emax : Z := 1024.

(** [x + y], [x - y] and [x == y] on floats. *)
Definition add (x y : float) : float := SFadd prec emax x y.
Definition sub (x y : float) : float := SFsub prec emax x y.
Definition eqb (x y : float) : bool := SFeqb x y.

(** [0.0], which is also what the int [0] becomes next to a float. *)
Definition zero : float := S754_zero false.

(** The positive float [m * 2^e]. *)
Definition lit (m : positive) (e : Z) : float := S754_finite false m e.

(** The rational number that a finite float is. *)
Definition to_Qc (x : float) : Qc :=
  match x with
  | S754_finite s m e =>
      let q := match e with
               | Z0 => Q2Qc (Zpos m # 1)
               | Zpos p => Q2Qc (Zpos (m * 2 ^ p) # 1)
               | Zneg p => Q2Qc (Zpos m # 2 ^ p)
               end in
      if s then - q else q
  | _ => 0
  end.

(** [sum(l)]: the fold [((0 + x1) + x2) + ...].  (From Python 3.12 on
    [sum] also carries a correction term for the rounding errors of
    floats; it is zero wherever the additions are exact, and it does not
    change the sum of 1.0 and 1e16, which is 1e16 either way.) *)
Definition sum (l : list float) : float := foldl add zero l.

End Float64.

(** ** class SubsetSum, on floats *)

Module SubsetSum64.
Import Float64.

(** The memo dictionary.  Its keys [(i, target_Sum)] are compared with
    [==]: [0.0] and [-0.0] are one key and a NaN equals no key.  The
    latest entry of a key is the one found. *)
Definition Memo : Type := list ((nat * float) * nat).

Fixpoint memo_get (memo : Memo) (i : nat) (target_Sum : float)
  : option nat :=
  match memo with
  | [] => None
  | ((j, t), count) :: memo =>
      if decide (i = j) then
        if eqb target_Sum t then Some count else memo_get memo i target_Sum
      else memo_get memo i target_Sum
  end.

Definition memo_set (memo : Memo) (i : nat) (target_Sum : float)
    (count : nat) : Memo :=
  ((i, target_Sum), count) :: memo.

(** [SubsetSum.f]. *)
Equations? f (v_list : list float) (i : nat) (target_Sum : float)
    (memo : Memo) : nat * Memo by wf (length v_list - i)%nat lt :=
f v_list i target_Sum memo with decide (length v_list ≤ i)%nat := {
  | left _ => (if eqb target_Sum zero then 1%nat else 0%nat, memo)
  | right _ with memo_get memo i target_Sum := {
     | Some count => (count, memo)
     | None =>
        let '(count, memo) := f v_list (i + 1) target_Sum memo in
        let '(count', memo) :=
          f v_list (i + 1) (sub target_Sum (default zero (v_list !! i)))
            memo in
        let count := (count + count')%nat in
        (count, memo_set memo i target_Sum count) } }.
Proof. all: lia. Qed.

(** The loop state of [SubsetSum.g]. *)
Record g_state (W : Type) : Type := GState {
  subset : list float;
  id_subset : list W;
  target_Sum : float;
  memo : Memo
}.
Global Arguments GState {W} _ _ _ _.
Global Arguments subset {W} _.
Global Arguments id_subset {W} _.
Global Arguments target_Sum {W} _.
Global Arguments memo {W} _.

(** One iteration of the [for i, (x, y) in enumerate(zip(...))] loop. *)
Definition g_body {W} (v_list : list float) (st : g_state W)
    (item : nat * (float * W)) : g_state W :=
  let '(i, (x, y)) := item in
  let '(count, memo) :=
    f v_list (i + 1) (sub (target_Sum st) x) (memo st) in
  if decide (0 < count)%nat
  then GState (subset st ++ [x]) (id_subset st ++ [y])
              (sub (target_Sum st) x) memo
  else GState (subset st) (id_subset st) (target_Sum st) memo.

(** [SubsetSum.g]. *)
Definition g {W} (v_list : list float) (w_list : list W)
    (target_Sum : float) (memo : Memo) : (list float * list W) * Memo :=
  let st := foldl (g_body v_list) (GState [] [] target_Sum memo)
                  (imap pair (zip v_list w_list)) in
  ((subset st, id_subset st), SubsetSum64.memo st).

(** [SubsetSum.get_banks_to_leave_open]. *)
Definition get_banks_to_leave_open (x_list : list float) (target : float)
  : float * list float :=
  let memo : Memo := [] in
  let '((result, _), _) := g x_list x_list target memo in
  (Float64.sum result, result).

End SubsetSum64.

(** ** class ResistanceManager *)

Module ResistanceManager.
Import Py.

(** A relay closure: a pair of channel names. *)
Abbreviation pair_t := (string * string)%type.

(** The attributes of an instance. *)
Record t : Type := Self {
  device : string;
  topology : string;
  channel : nat;
  connections : list pair_t;
  bank_a : list string;
  bank_b : list string
}.

Definition set_connections (c : list pair_t) (self : t) : t :=
  {| device := device self; topology := topology self;
     channel := channel self; connections := c;
     bank_a := bank_a self; bank_b := bank_b self |}.

(** [connections.clear()] and [connections.append(p)], where
    [connections] aliases [self.connections]. *)
Definition connections_clear : M t unit :=
  λ self, (Ok (), set_connections [] self).
Definition connections_append (p : pair_t) : M t unit :=
  λ self, (Ok (), set_connections (connections self ++ [p]) self).
Definition self_connections : M t (list pair_t) :=
  λ self, (Ok (connections self), self).
Definition self_bank_a (i : nat) : M t string :=
  λ self, (getitem (bank_a self) i, self).
Definition self_bank_b (i : nat) : M t string :=
  λ self, (getitem (bank_b self) i, self).

Definition even_bank : list Qc :=
  [num 1 4; num 1 2; int 1; int 2; int 4; int 8; int 16; int 32].
Definition odd_bank : list Qc :=
  [int 64; int 128; int 256; int 512; int 1024; int 2048; int 4096; int 8192].

(** [round(resistance*4)/4]. *)
Definition quantize (resistance : Qc) : Qc :=
  int (round (resistance * int 4)) / int 4.

Section set_iteration.

(** The order in which [for bank in s] visits a Python set is not fixed by
    the language; it is a parameter of the model. *)
Variable set_iter : gset Qc → list Qc.

(** [ResistanceManager.get_banks_to_close_by_name]. *)
Definition get_banks_to_close_by_name (resistance : Qc) : M t (list pair_t) :=
  let retConnections : list pair_t := [] in
  if decide (0 ≤ resistance ∧ resistance ≤ int 16000) then
    let resistance := quantize resistance in
    let '(sum, values) :=
      SubsetSum.get_banks_to_leave_open (even_bank ++ odd_bank) resistance in
    let bank0_close : gset Qc := list_to_set even_bank ∖ list_to_set values in
    let bank1_close : gset Qc := list_to_set odd_bank ∖ list_to_set values in
    prefix_bank_A ← self_bank_a 0;
    prefix_bank_B ← self_bank_b 0;
    a_engage ← self_bank_a 1;
    b_engage ← self_bank_b 1;
    a2 ← self_bank_a 2; a3 ← self_bank_a 3;
    a4 ← self_bank_a 4; a5 ← self_bank_a 5;
    a6 ← self_bank_a 6; a7 ← self_bank_a 7;
    a8 ← self_bank_a 8; a9 ← self_bank_a 9;
    let bank0_dict : gmap Qc string :=
      <[int 32 := a9]> (<[int 16 := a8]> (<[int 8 := a7]> (<[int 4 := a6]>
      (<[int 2 := a5]> (<[int 1 := a4]> (<[num 1 2 := a3]>
      (<[num 1 4 := a2]> ∅))))))) in
    b2 ← self_bank_b 2; b3 ← self_bank_b 3;
    b4 ← self_bank_b 4; b5 ← self_bank_b 5;
    b6 ← self_bank_b 6; b7 ← self_bank_b 7;
    b8 ← self_bank_b 8; b9 ← self_bank_b 9;
    let bank1_dict : gmap Qc string :=
      <[int 8192 := b9]> (<[int 4096 := b8]> (<[int 2048 := b7]>
      (<[int 1024 := b6]> (<[int 512 := b5]> (<[int 256 := b4]>
      (<[int 128 := b3]> (<[int 64 := b2]> ∅))))))) in
    connections_clear;;
    connections_append (prefix_bank_A, a_engage);;
    connections_append (prefix_bank_B, b_engage);;
    connections_append (prefix_bank_A, prefix_bank_B);;
    for_each (set_iter bank0_close) (λ bank,
      n ← lift (dict_get bank0_dict bank);
      connections_append (prefix_bank_A, n));;
    for_each (set_iter bank1_close) (λ bank,
      n ← lift (dict_get bank1_dict bank);
      connections_append (prefix_bank_B, n));;
    connections ← self_connections;
    mret (retConnections ++ connections)
  else
    lift (format_2f resistance);;
    mret retConnections.

End set_iteration.

(** *** The niswitch session used by [clearWholeChannel] *)

(** [niswitch.PathCapability] and its [.value]. *)
Inductive PathCapability : Type :=
  | PATH_AVAILABLE
  | PATH_EXISTS
  | PATH_UNSUPPORTED
  | RESOURCE_IN_USE
  | SOURCE_CONFLICT
  | CHANNEL_NOT_AVAILABLE.

Definition value (c : PathCapability) : Z :=
  match c with
  | PATH_AVAILABLE => 1
  | PATH_EXISTS => 2
  | PATH_UNSUPPORTED => 3
  | RESOURCE_IN_USE => 4
  | SOURCE_CONFLICT => 5
  | CHANNEL_NOT_AVAILABLE => 6
  end.

(** The switch card behind a [niswitch.Session]: an opaque relay state
    [C] with the three driver calls the code uses.  Each call may raise. *)
Class Session (C : Type) : Type := {
  can_connect : C → string → string → result PathCapability;
  connect : C → string → string → result C;
  disconnect : C → string → string → result C
}.

(** Driver calls, in the order they are issued. *)
Inductive event : Type :=
  | CanConnect (a b : string) (r : result PathCapability)
  | Disconnect (a b : string)
  | Connect (a b : string).

(** The card together with the log of the calls made on it. *)
Record world (C : Type) : Type := World {
  card : C;
  trace : list event
}.
Global Arguments World {C} _ _.
Global Arguments card {C} _.
Global Arguments trace {C} _.

Section clear.
Context {C : Type} `{!Session C}.

Definition ni_can_connect (a b : string) : M (world C) PathCapability :=
  λ w, let r := can_connect (card w) a b in
       (r, World (card w) (trace w ++ [CanConnect a b r])).

Definition ni_disconnect (a b : string) : M (world C) unit :=
  λ w, let tr := trace w ++ [Disconnect a b] in
       match disconnect (card w) a b with
       | Ok c => (Ok (), World c tr)
       | Raise e => (Raise e, World (card w) tr)
       end.

(** The local function [checkAndDisconnect] of [clearWholeChannel]. *)
Definition checkAndDisconnect (a b : string) : M (world C) unit :=
  state ← ni_can_connect a b;
  if decide (value PATH_EXISTS = value state)
  then ni_disconnect a b
  else mret ().

(** [ResistanceManager.clearWholeChannel]. *)
Definition clearWholeChannel (self : t) : M (world C) unit :=
  for_each (drop 1 (bank_a self)) (λ n,
    a0 ← lift (getitem (bank_a self) 0);
    checkAndDisconnect a0 n);;
  for_each (drop 1 (bank_b self)) (λ n,
    b0 ← lift (getitem (bank_b self) 0);
    checkAndDisconnect b0 n);;
  a0 ← lift (getitem (bank_a self) 0);
  b0 ← lift (getitem (bank_b self) 0);
  checkAndDisconnect a0 b0.

End clear.

(** *** [setResistance], [getChannels], [__init__], [__del__] *)

Section set_resistance.
Context {C : Type} `{!Session C}.
Variable set_iter : gset Qc → list Qc.

Definition ni_connect (a b : string) : M (world C) unit :=
  λ w, let tr := trace w ++ [Connect a b] in
       match connect (card w) a b with
       | Ok c => (Ok (), World c tr)
       | Raise e => (Raise e, World (card w) tr)
       end.

(** [ResistanceManager.setResistance]: the instance and the card are both
    touched, so the state is the pair of them. *)
Definition setResistance (resistance_ohms : Qc) : M (t * world C) unit :=
  λ st,
    (zoom_r (clearWholeChannel st.1);;
     plan ← zoom_l (get_banks_to_close_by_name set_iter resistance_ohms);
     zoom_r (for_each plan (λ '(a, b), ni_connect a b))) st.

(** [ResistanceManager.__del__]. *)
Definition del (self : t) : M (world C) unit := clearWholeChannel self.

End set_resistance.

(** The part of the driver that [getChannels] uses:
    [session.get_channel_name(i)], which raises for an index the card
    does not have. *)
Class ChannelNames (C : Type) : Type := {
  get_channel_name : C → nat → result string
}.

Section get_channels.
Context {C : Type} `{!ChannelNames C}.

(** The loop [for i in range(i, i + n)] of [getChannels]: each name is
    appended to [channel_names]; [niswitch.errors.Error] breaks out of the
    loop, any other exception propagates. *)
Fixpoint read_channel_names (c : C) (n i : nat) (channel_names : list string)
  : result (list string) :=
  match n with
  | O => Ok channel_names
  | S n =>
      match get_channel_name c i with
      | Ok name => read_channel_names c n (S i) (channel_names ++ [name])
      | Raise DriverError => Ok channel_names
      | Raise e => Raise e
      end
  end.

(** [ResistanceManager.getChannels]; [range(1, 99999)] has 99998
    elements. *)
Definition getChannels (channel : nat) (c : C)
  : result (list string * list string) :=
  let prefix_bank_A := "b" +:+ pretty (channel * 2)%nat in
  let prefix_bank_B := "b" +:+ pretty (channel * 2 + 1)%nat in
  match read_channel_names c (Z.to_nat 99998) 1 [] with
  | Ok channel_names =>
      let b0 :=
        filter (λ col, String.prefix prefix_bank_A col) channel_names in
      let b1 :=
        filter (λ row, String.prefix prefix_bank_B row) channel_names in
      Ok (b0, b1)
  | Raise e => Raise e
  end.

(** [ResistanceManager.__init__]. *)
Definition init (device : string) (channel : nat) (topo : string) (c : C)
  : result t :=
  match getChannels channel c with
  | Ok (bank_a, bank_b) => Ok (Self device topo channel [] bank_a bank_b)
  | Raise e => Raise e
  end.

End get_channels.

End ResistanceManager.

(** ** class SwitchManager (switch_manager.py)

    The calls that talk to the driver only; [getConnections], [clearRow]
    and [clearCol] go through a pandas DataFrame and are not modelled. *)

Module SwitchManager.
Import Py.
Import ResistanceManager.

Global Instance PathCapability_eq_dec : EqDecision PathCapability.
Proof. solve_decision. Defined.

Section matrix.
Context {C : Type} `{!Session C}.

(** [SwitchManager.connect]: the capability itself is compared with
    [PATH_EXISTS]. *)
Definition connect (row col : string) : M (world C) unit :=
  state ← ni_can_connect row col;
  if decide (state = PATH_EXISTS)
  then mret ()
  else ni_connect row col.

(** [SwitchManager.disconnect]. *)
Definition disconnect (row col : string) : M (world C) unit :=
  state ← ni_can_connect row col;
  if decide (state = PATH_EXISTS)
  then ni_disconnect row col
  else mret ().

End matrix.

Section matrix_channels.
Context {C : Type} `{!ChannelNames C}.

(** [SwitchManager.getChannels]: the loop is the one of
    [ResistanceManager.getChannels]. *)
Definition getChannels (c : C) : result (list string * list string) :=
  match read_channel_names c (Z.to_nat 99998) 1 [] with
  | Ok channel_names =>
      let columns := filter (λ col, String.prefix "c" col) channel_names in
      let rows := filter (λ row, String.prefix "r" row) channel_names in
      Ok (columns, rows)
  | Raise e => Raise e
  end.

End matrix_channels.

End SwitchManager.

Module Spec.
Import Py.

Fixpoint sublists (l : list Qc) : list (list Qc) :=
  match l with
  | [] => [[]]
  | x :: l => sublists l ++ (cons x <$> sublists l)
  end.

Definition count_subsets (l : list Qc) (r : Qc) : nat :=
  length (filter (λ s, sum s = r) (sublists l)).

(** A multiple of a quarter. *)
Definition quarter (x : Qc) : Prop := ∃ k : Z, x = int k * num 1 4.

(** Inputs of the solver on which the code computes exactly when run on
    floats (or on ints): every number it forms is the target minus some
    of the values, or a sum of some of the values, hence a multiple of
    1/4 of magnitude at most 2^50, which binary64 holds exactly; and the
    list is short enough for the recursion of [f]. *)
Definition exact_inputs (v_list : list Qc) (target : Qc) : Prop :=
  Forall quarter v_list ∧ quarter target ∧
  (length v_list ≤ 500)%nat ∧
  Qcabs.Qcabs target + sum (Qcabs.Qcabs <$> v_list) ≤ int (2 ^ 50).

Definition memo_ok (v_list : list Qc) (memo : SubsetSum.Memo) : Prop :=
  ∀ i r c, memo !! (i, r) = Some c → c = count_subsets (drop i v_list) r.

Fixpoint greedy (l : list Qc) (r : Qc) : list Qc :=
  match l with
  | [] => []
  | x :: l =>
      if decide (0 < count_subsets l (r - x))%nat
      then x :: greedy l (r - x)
      else greedy l r
  end.

Definition catalog : list Qc :=
  ResistanceManager.even_bank ++ ResistanceManager.odd_bank.

Fixpoint select_bits (k : Z) (i : nat) (l : list Qc) : list Qc :=
  match l with
  | [] => []
  | x :: l =>
      if Z.testbit k (Z.of_nat i)
      then x :: select_bits k (S i) l
      else select_bits k (S i) l
  end.

Definition binary_decomposition (k : Z) : list Qc := select_bits k 0 catalog.

Definition quarters (t : Qc) : Z := floor (t / num 1 4).

Definition channel_at (layout : list string) (i : nat) : string :=
  default "" (layout !! i).

Definition bypass_channel (bank : list Qc) (layout : list string) (v : Qc)
  : string :=
  match list_find (λ x, x = v) bank with
  | Some (j, _) => channel_at layout (2 + j)
  | None => ""
  end.

Definition unconditional_closures (self : ResistanceManager.t)
  : list (string * string) :=
  let A := ResistanceManager.bank_a self in
  let B := ResistanceManager.bank_b self in
  [(channel_at A 0, channel_at A 1);
   (channel_at B 0, channel_at B 1);
   (channel_at A 0, channel_at B 0)].

Definition bypass_closures (bank : list Qc) (layout : list string)
    (close : list Qc) : list (string * string) :=
  (λ v, (channel_at layout 0, bypass_channel bank layout v)) <$> close.

Definition valid_set_iter (set_iter : gset Qc → list Qc) : Prop :=
  ∀ s, set_iter s ≡ₚ elements s.

Definition channel_pairs (self : ResistanceManager.t)
  : list (string * string) :=
  let A := ResistanceManager.bank_a self in
  let B := ResistanceManager.bank_b self in
  ((λ n, (channel_at A 0, n)) <$> drop 1 A) ++
  ((λ n, (channel_at B 0, n)) <$> drop 1 B) ++
  [(channel_at A 0, channel_at B 0)].


Section traces.
Import ResistanceManager.
Context {C : Type} `{!Session C}.





(** A driver none of whose calls raises. *)
Definition reliable_driver : Prop :=
  (∀ (c : C) a b, ∃ st, can_connect c a b = Ok st) ∧
  (∀ (c : C) a b, ∃ c', disconnect c a b = Ok c').

(** A driver on which a connect makes the path of its pair exist and
    removes no path. *)
Definition connect_closes : Prop :=
  ∀ (c c' : C) a b, connect c a b = Ok c' →
    can_connect c' a b = Ok PATH_EXISTS ∧
    ∀ x y, can_connect c x y = Ok PATH_EXISTS →
           can_connect c' x y = Ok PATH_EXISTS.

(** Every pair of [pairs] has a path on card [c]. *)
Definition all_closed (c : C) (pairs : list (string * string)) : Prop :=
  ∀ p, p ∈ pairs → can_connect c p.1 p.2 = Ok PATH_EXISTS.

(** A driver whose connect never raises. *)
Definition reliable_connect : Prop :=
  ∀ (c : C) a b, ∃ c', connect c a b = Ok c'.

(** A driver on which a disconnect opens the pair it is given and makes
    no path appear elsewhere. *)
Definition disconnect_opens : Prop :=
  ∀ (c c' : C) a b, disconnect c a b = Ok c' →
    can_connect c' a b ≠ Ok PATH_EXISTS ∧
    ∀ x y, can_connect c x y ≠ Ok PATH_EXISTS →
           can_connect c' x y ≠ Ok PATH_EXISTS.

(** No pair of [pairs] has a path on card [c]. *)
Definition all_open (c : C) (pairs : list (string * string)) : Prop :=
  ∀ p, p ∈ pairs → can_connect c p.1 p.2 ≠ Ok PATH_EXISTS.

End traces.

(** The card lists [names] at the indices [i], [i + 1], ... *)
Definition lists_from {C : Type} `{!ResistanceManager.ChannelNames C}
    (c : C) (i : nat) (names : list string) : Prop :=
  ∀ k name, names !! k = Some name →
    ResistanceManager.get_channel_name c (i + k) = Ok name.

(** The name prefixes of the two banks of a channel. *)
Definition prefix_bank_A (channel : nat) : string :=
  "b" +:+ pretty (channel * 2)%nat.
Definition prefix_bank_B (channel : nat) : string :=
  "b" +:+ pretty (channel * 2 + 1)%nat.

(** The plan with the bypass closures of each bank in catalog order. *)
Definition catalog_order_plan (self : ResistanceManager.t)
    (values : list Qc) : list (string * string) :=
  unconditional_closures self ++
  bypass_closures ResistanceManager.even_bank (ResistanceManager.bank_a self)
    (filter (λ v, v ∉ values) ResistanceManager.even_bank) ++
  bypass_closures ResistanceManager.odd_bank (ResistanceManager.bank_b self)
    (filter (λ v, v ∉ values) ResistanceManager.odd_bank).

(** [x; 2x; 4x; ...], [n] values. *)
Fixpoint pows (x : Qc) (n : nat) : list Qc :=
  match n with
  | O => []
  | S n => x :: pows (2 * x) n
  end.
End Spec.

(** ** Concrete instances *)

Module Examples.
Import Py ResistanceManager.

(** Two admissible iteration orders for sets. *)
Definition ascending (s : gset Qc) : list Qc := merge_sort Qcle (elements s).
Definition descending (s : gset Qc) : list Qc := reverse (ascending s).

(** The manager of channel 0, with the channel names of the 2722. *)
Definition rm0 : ResistanceManager.t :=
  Self "PXI1Slot7" "2722/Independent" 0 []
    ["b0"; "b0engage"; "b0r1"; "b0r2"; "b0r3"; "b0r4"; "b0r5"; "b0r6";
     "b0r7"; "b0r8"]
    ["b1"; "b1engage"; "b1r1"; "b1r2"; "b1r3"; "b1r4"; "b1r5"; "b1r6";
     "b1r7"; "b1r8"].


(** A card that remembers which pairs are connected and never fails. *)
Record relays : Type := Relays { closed : list (string * string) }.

Global Instance relays_session : Session relays := {|
  can_connect c a b :=
    Ok (if bool_decide ((a, b) ∈ closed c) then PATH_EXISTS
        else PATH_AVAILABLE);
  connect c a b := Ok (Relays ((a, b) :: closed c));
  disconnect c a b := Ok (Relays (filter (λ p, p ≠ (a, b)) (closed c)))
|}.

(** A card that lists a fixed sequence of channel names, from index 1,
    and raises [at_end] for every index after them. *)
Record name_table : Type := NameTable {
  names : list string;
  at_end : exn
}.

Global Instance name_table_names : ChannelNames name_table := {|
  get_channel_name c i :=
    match i with
    | O => Raise DriverError
    | S i => match names c !! i with
             | Some name => Ok name
             | None => Raise (at_end c)
             end
    end
|}.

(** The floats 0.1, 0.2, 0.3 and 0.6. *)
Definition f0_1 : Float64.float := Float64.lit 7205759403792794 (-56).
Definition f0_2 : Float64.float := Float64.lit 7205759403792794 (-55).
Definition f0_3 : Float64.float := Float64.lit 5404319552844595 (-54).
Definition f0_6 : Float64.float := Float64.lit 5404319552844595 (-53).

(** The floats 1.0, 1e16 and 1e16 + 2. *)
Definition f1 : Float64.float := Float64.lit 4503599627370496 (-52).
Definition f1e16 : Float64.float := Float64.lit 5000000000000000 1.
Definition f1e16_2 : Float64.float := Float64.lit 5000000000000001 1.

End Examples.

Section subset_sum_facts.
Import Py Spec SubsetSum.

Lemma foldl_Qcplus (a : Qc) (l : list Qc) : foldl Qcplus a l = a + sum l.
Proof.
  unfold sum. revert a. induction l as [|x l IH]; intros a; simpl.
  - ring.
  - rewrite (IH (a + x)), (IH (0 + x)). ring.
Qed.

Lemma sum_nil : sum [] = 0.
Proof. reflexivity. Qed.

Lemma sum_cons (x : Qc) (l : list Qc) : sum (x :: l) = x + sum l.
Proof. unfold sum at 1. simpl. rewrite foldl_Qcplus. ring. Qed.

Lemma sum_app (l k : list Qc) : sum (l ++ k) = sum l + sum k.
Proof.
  induction l as [|x l IH]; simpl.
  - rewrite sum_nil. ring.
  - rewrite !sum_cons, IH. ring.
Qed.

Lemma count_subsets_nil (r : Qc) :
  count_subsets [] r = if decide (r = 0) then 1%nat else 0%nat.
Proof.
  unfold count_subsets. simpl. rewrite filter_cons, filter_nil, sum_nil.
  repeat case_decide; simpl; congruence.
Qed.

Lemma count_subsets_cons (x : Qc) (l : list Qc) (r : Qc) :
  count_subsets (x :: l) r = (count_subsets l r + count_subsets l (r - x))%nat.
Proof.
  unfold count_subsets. simpl.
  rewrite filter_app, length_app. f_equal.
  induction (sublists l) as [|s L IH]; [done|].
  rewrite fmap_cons, !filter_cons, sum_cons.
  destruct (decide (x + sum s = r)) as [E|E], (decide (sum s = r - x)) as [E'|E'];
    simpl; rewrite ?IH; try done.
  - destruct E'. rewrite <- E. ring.
  - destruct E. rewrite E'. ring.
Qed.

Lemma elem_of_sublists (s l : list Qc) : s ∈ sublists l ↔ s `sublist_of` l.
Proof.
  revert s. induction l as [|x l IH]; intros s; simpl.
  - rewrite list_elem_of_singleton. split; [intros ->; constructor|apply sublist_nil_r].
  - rewrite elem_of_app, list_elem_of_fmap, sublist_cons_r, IH.
    split; (intros [?|(s' & -> & Hs')]; [by left|right; exists s'; split; [done|by apply IH]]).
Qed.

Lemma count_subsets_pos (l : list Qc) (r : Qc) :
  (0 < count_subsets l r)%nat ↔ ∃ s, s `sublist_of` l ∧ sum s = r.
Proof.
  unfold count_subsets. split.
  - intros Hlen. destruct (filter _ _) as [|s L] eqn:E; [simpl in Hlen; lia|].
    assert (Hs : s ∈ filter (λ s, sum s = r) (sublists l)) by (rewrite E; left).
    apply list_elem_of_filter in Hs as [Hsum Hs%elem_of_sublists]. eauto.
  - intros (s & Hs%elem_of_sublists & Hsum).
    assert (Hin : s ∈ filter (λ s, sum s = r) (sublists l))
      by (by apply list_elem_of_filter).
    destruct (filter _ _); [by apply elem_of_nil in Hin|simpl; lia].
Qed.

Lemma memo_ok_empty (v_list : list Qc) : memo_ok v_list ∅.
Proof. intros i r c. by rewrite lookup_empty. Qed.

Lemma f_spec (v_list : list Qc) (i : nat) (r : Qc) (m : Memo) :
  memo_ok v_list m →
  (f v_list i r m).1 = count_subsets (drop i v_list) r ∧
  memo_ok v_list (f v_list i r m).2.
Proof.
  funelim (f v_list i r m); intros Hm; simpl.
  - rewrite drop_ge, count_subsets_nil by done. done.
  - split; [by apply Hm|done].
  - destruct (lookup_lt_is_Some_2 v_list i) as [x Hx]; [lia|].
    rewrite Hx in *. simpl in *.
    rewrite (drop_S _ _ _ Hx), count_subsets_cons.
    destruct (H Hm) as [Hc1 Hm1].
    destruct (f v_list (i + 1) target_Sum0 memo0) as [c1 m1]. simpl in *.
    destruct (H0 c1 m1 Hm1) as [Hc2 Hm2].
    destruct (f v_list (i + 1) (target_Sum0 - x) m1) as [c2 m2]. simpl in *.
    replace (S i) with (i + 1)%nat by lia. rewrite <- Hc1, <- Hc2.
    split; [done|].
    intros j r c. rewrite lookup_insert.
    destruct (decide ((i, target_Sum0) = (j, r))) as [[= <- <-]|E].
    + intros [= <-].
      rewrite (drop_S _ _ _ Hx), count_subsets_cons.
      replace (S i) with (i + 1)%nat by lia. by rewrite Hc1, Hc2.
    + apply Hm2.
Qed.

Lemma greedy_sublist (l : list Qc) (r : Qc) : greedy l r `sublist_of` l.
Proof.
  revert r. induction l as [|x l IH]; intros r; simpl; [done|].
  case_decide; [by apply sublist_skip|by apply sublist_cons].
Qed.

Lemma greedy_sum (l : list Qc) (r : Qc) :
  (0 < count_subsets l r)%nat → sum (greedy l r) = r.
Proof.
  revert r. induction l as [|x l IH]; intros r; simpl.
  - rewrite count_subsets_nil. case_decide; [by rewrite sum_nil|lia].
  - rewrite count_subsets_cons. intros Hpos. case_decide as Hin.
    + rewrite sum_cons, IH by done. ring.
    + apply IH. lia.
Qed.

Lemma greedy_infeasible (l : list Qc) (r : Qc) :
  count_subsets l r = 0%nat → greedy l r = [].
Proof.
  revert r. induction l as [|x l IH]; intros r; simpl; [done|].
  rewrite count_subsets_cons. intros Hz.
  case_decide; [lia|]. apply IH. lia.
Qed.

Lemma foldl_g_body {W} (v_list l : list Qc) (lw : list W) (i : nat)
    (st : g_state W) :
  drop i v_list = l → length lw = length l → memo_ok v_list (memo st) →
  let st' := foldl (g_body v_list) st
               (imap (λ j p, ((i + j)%nat, p)) (zip l lw)) in
  subset st' = subset st ++ greedy l (target_Sum st) ∧
  memo_ok v_list (memo st').
Proof.
  revert lw i st. induction l as [|x l IH]; intros lw i st Hdrop Hlen Hm.
  - simpl. by rewrite app_nil_r.
  - destruct lw as [|y lw]; [done|]. injection Hlen as Hlen.
    assert (Hx : v_list !! i = Some x).
    { rewrite <- (Nat.add_0_r i), <- lookup_drop, Hdrop. done. }
    assert (Hdrop' : drop (S i) v_list = l).
    { rewrite (drop_S _ _ _ Hx) in Hdrop. congruence. }
    cbn [zip zip_with imap foldl].
    rewrite (imap_ext _ (λ j p, ((S i + j)%nat, p)))
      by (intros; simpl; f_equal; lia).
    set (st1 := g_body v_list st ((i + 0)%nat, (x, y))).
    assert (Hst1 : memo_ok v_list (memo st1) ∧
              subset st1 ++ greedy l (target_Sum st1) =
              subset st ++ greedy (x :: l) (target_Sum st)).
    { subst st1. unfold g_body.
      replace (i + 0 + 1)%nat with (S i) by lia.
      destruct (f_spec v_list (S i) (target_Sum st - x) (memo st) Hm)
        as [Hc Hm'].
      destruct (f v_list (S i) (target_Sum st - x) (memo st)) as [c m'].
      simpl in Hc, Hm'. rewrite Hdrop' in Hc. subst c. cbn [greedy].
      case_decide; simpl; [by rewrite <- app_assoc|done]. }
    destruct Hst1 as [Hm1 <-]. by apply IH.
Qed.

Lemma g_spec (v_list : list Qc) (target : Qc) (m : Memo) :
  memo_ok v_list m →
  (g v_list v_list target m).1.1 = greedy v_list target ∧
  memo_ok v_list (g v_list v_list target m).2.
Proof.
  intros Hm. unfold g. cbn [fst snd].
  change (imap pair (zip v_list v_list))
    with (imap (λ j p, ((0 + j)%nat, p)) (zip v_list v_list)).
  by apply (foldl_g_body v_list v_list v_list 0 (GState [] [] target m)).
Qed.

Lemma SubsetSum_get_banks_to_leave_open_greedy (x_list : list Qc) (target : Qc) :
  get_banks_to_leave_open x_list target =
    (sum (greedy x_list target), greedy x_list target).
Proof.
  unfold get_banks_to_leave_open.
  pose proof (g_spec x_list target ∅ (memo_ok_empty _)) as [Hg _].
  destruct (g x_list x_list target ∅) as [[result ids] m]. simpl in Hg.
  by subst.
Qed.

End subset_sum_facts.

Section binary_catalog.
Import Py Spec.

Lemma catalog_pows : catalog = pows (num 1 4) 16.
Proof. apply (bool_decide_unpack (catalog = pows (num 1 4) 16)). by vm_compute. Qed.

Lemma select_bits_shift (k : Z) (i : nat) (l : list Qc) :
  select_bits k (S i) l = select_bits (k / 2) i l.
Proof.
  revert i. induction l as [|x l IH]; intros i; cbn [select_bits]; [done|].
  rewrite !IH, Nat2Z.inj_succ, Z.div2_bits by lia. done.
Qed.

Lemma select_bits_cons (k : Z) (x : Qc) (l : list Qc) :
  select_bits k 0 (x :: l) =
    if Z.odd k then x :: select_bits (k / 2) 0 l
    else select_bits (k / 2) 0 l.
Proof. cbn [select_bits]. by rewrite Z.bit0_odd, select_bits_shift. Qed.

Lemma select_bits_sublist (k : Z) (i : nat) (l : list Qc) :
  select_bits k i l `sublist_of` l.
Proof.
  revert i. induction l as [|x l IH]; intros i; simpl; [done|].
  destruct (Z.testbit _ _); [by apply sublist_skip|by apply sublist_cons].
Qed.

Lemma select_bits_sum (x : Qc) (n : nat) (k : Z) :
  sum (select_bits k 0 (pows x n)) = int (k mod 2 ^ Z.of_nat n) * x.
Proof.
  revert x k. induction n as [|n IH]; intros x k.
  - simpl. rewrite Z.mod_1_r, sum_nil. unfold int. rewrite Z2Qc_inj_0. ring.
  - cbn [pows]. rewrite select_bits_cons.
    rewrite Nat2Z.inj_succ, Z.pow_succ_r by lia.
    rewrite Z.rem_mul_r by lia.
    rewrite Zmod_odd. unfold int in *.
    rewrite Z2Qc_inj_add, Z2Qc_inj_mul, Z2Qc_inj_2.
    destruct (Z.odd k); rewrite ?sum_cons, IH.
    + rewrite Z2Qc_inj_1. ring.
    + rewrite Z2Qc_inj_0. ring.
Qed.

Lemma sublist_pows (x : Qc) (n : nat) (s : list Qc) :
  s `sublist_of` pows x n →
  ∃ m, (0 ≤ m < 2 ^ Z.of_nat n)%Z ∧ s = select_bits m 0 (pows x n).
Proof.
  revert x s. induction n as [|n IH]; intros x s Hs.
  - apply sublist_nil_r in Hs as ->. exists 0%Z. simpl. split; [lia|done].
  - cbn [pows] in *. rewrite Nat2Z.inj_succ, Z.pow_succ_r by lia.
    apply sublist_cons_r in Hs as [Hs|(s' & -> & Hs)];
      destruct (IH _ _ Hs) as (m & Hm & ->).
    + exists (2 * m)%Z. split; [lia|]. rewrite select_bits_cons.
      rewrite Z.odd_mul, Z.mul_comm, Z.div_mul by lia. done.
    + exists (2 * m + 1)%Z. split; [lia|]. rewrite select_bits_cons.
      rewrite Z.odd_odd.
      replace ((2 * m + 1) / 2)%Z with m
        by (apply Z.div_unique with 1%Z; lia).
      done.
Qed.

Lemma Qcmult_cancel_r (a b x : Qc) : x ≠ 0 → a * x = b * x → a = b.
Proof.
  intros Hx E. rewrite <- (Qcmult_1_r a), <- (Qcmult_1_r b).
  rewrite <- (Qcmult_inv_r x Hx), !Qcmult_assoc. by rewrite E.
Qed.

Lemma sublist_pows_unique (x : Qc) (n : nat) (s : list Qc) (k : Z) :
  x ≠ 0 → s `sublist_of` pows x n → sum s = int k * x →
  (0 ≤ k < 2 ^ Z.of_nat n)%Z ∧ s = select_bits k 0 (pows x n).
Proof.
  intros Hx Hs Hsum. destruct (sublist_pows _ _ _ Hs) as (m & Hm & ->).
  rewrite select_bits_sum, Z.mod_small in Hsum by done.
  apply Qcmult_cancel_r in Hsum; [|done].
  apply Z2Qc_inj in Hsum. by subst.
Qed.

End binary_catalog.

Section rounding.
Import Py ResistanceManager.

Lemma round_int (k : Z) : round (int k) = k.
Proof.
  unfold round, int. simpl. rewrite Z.mod_1_r, Z.div_1_r. done.
Qed.

Lemma round_bounds (x : Qc) :
  int (round x) - num 1 2 ≤ x ∧ x ≤ int (round x) + num 1 2.
Proof.
  destruct x as [[n d] Hc]. unfold round. cbn [this Qnum Qden].
  pose proof (Z.div_mod n (Z.pos d) ltac:(lia)) as Hdm.
  pose proof (Z.mod_pos_bound n (Z.pos d) ltac:(lia)) as Hb.
  set (q := (n / Z.pos d)%Z) in *. set (m := (n mod Z.pos d)%Z) in *.
  assert (Hle : ∀ z : Z,
    (2 * z * Z.pos d - Z.pos d ≤ 2 * n ≤ 2 * z * Z.pos d + Z.pos d)%Z →
    int z - num 1 2 ≤ Qcmake (n # d) Hc ∧ Qcmake (n # d) Hc ≤ int z + num 1 2).
  { intros z Hz. unfold Qcle, int, num. simpl.
    rewrite !Qred_correct. unfold Qle. simpl. lia. }
  destruct (Z.compare_spec (2 * m) (Z.pos d)); [destruct (Z.even q)|..];
    apply Hle; lia.
Qed.

Lemma gcd_odd_2 (j : Z) : Z.gcd (2 * j + 1) 2 = 1%Z.
Proof.
  rewrite Z.gcd_comm. replace (2 * j + 1)%Z with (1 + j * 2)%Z by lia.
  by rewrite Z.gcd_add_mult_diag_r.
Qed.

Lemma round_tie (j : Z) :
  round (num (2 * j + 1) 2) = if Z.even j then j else (j + 1)%Z.
Proof.
  unfold round, num. cbn [this Q2Qc].
  rewrite Qred_identity by apply gcd_odd_2.
  cbn [Qnum Qden].
  replace ((2 * j + 1) / 2)%Z with j by (apply Z.div_unique with 1%Z; lia).
  replace ((2 * j + 1) mod 2)%Z with 1%Z by (apply Z.mod_unique with j; lia).
  done.
Qed.

End rounding.

Section encoder.
Import Py Spec ResistanceManager.

Lemma for_each_append (body : Qc → M t unit) (cl : Qc → pair_t)
    (l : list Qc) (self : t) :
  (∀ v self, v ∈ l →
     body v self = (Ok (), set_connections (connections self ++ [cl v]) self)) →
  for_each l body self =
    (Ok (), set_connections (connections self ++ (cl <$> l)) self).
Proof.
  revert self. induction l as [|v l IH]; intros self Hbody.
  - simpl. unfold mret, M_ret. destruct self; simpl. by rewrite app_nil_r.
  - cbn [for_each]. unfold mbind, M_bind.
    rewrite Hbody by left. rewrite IH by (intros; apply Hbody; by right).
    destruct self; simpl. by rewrite <- app_assoc.
Qed.

Ltac destruct_layout l H :=
  do 10 (destruct l as [|? l]; [simpl in H; lia|]); clear H.

Ltac solve_bypass_body Hiter bank :=
  let v := fresh "v" in let st := fresh "st" in let Hv := fresh "Hv" in
  intros v st Hv%Hiter;
  apply elem_of_difference in Hv as [Hv _];
  apply elem_of_list_to_set in Hv; unfold bank in Hv;
  repeat (apply elem_of_cons in Hv as [->|Hv]);
  [by vm_compute..|by apply elem_of_nil in Hv].

Lemma get_banks_to_close_by_name_plan (set_iter : gset Qc → list Qc)
    (r : Qc) (self : t) :
  (∀ s x, x ∈ set_iter s → x ∈ s) →
  0 ≤ r → r ≤ int 16000 →
  (10 ≤ length (bank_a self))%nat → (10 ≤ length (bank_b self))%nat →
  let values := greedy catalog (quantize r) in
  let plan :=
    unconditional_closures self ++
    bypass_closures even_bank (bank_a self)
      (set_iter (list_to_set even_bank ∖ list_to_set values)) ++
    bypass_closures odd_bank (bank_b self)
      (set_iter (list_to_set odd_bank ∖ list_to_set values)) in
  get_banks_to_close_by_name set_iter r self =
    (Ok plan, set_connections plan self).
Proof.
  intros Hiter H0 H16 Ha Hb values plan.
  unfold get_banks_to_close_by_name.
  rewrite decide_True by done.
  rewrite SubsetSum_get_banks_to_leave_open_greedy.
  fold catalog. fold values.
  set (s0 := list_to_set even_bank ∖ list_to_set values) in *.
  set (s1 := list_to_set odd_bank ∖ list_to_set values) in *.
  destruct self as [dev topo ch conns A B]. cbn [bank_a bank_b] in Ha, Hb.
  destruct_layout A Ha. destruct_layout B Hb.
  subst plan.
  unfold mbind, M_bind, self_bank_a, self_bank_b, getitem, connections_clear.
  cbn [bank_a bank_b lookup list_lookup connections_append set_connections
       connections device topology channel app].
  rewrite (for_each_append _ (λ v, (s, bypass_channel even_bank
    (s :: s2 :: s3 :: s4 :: s5 :: s6 :: s7 :: s8 :: s9 :: s10 :: A) v)))
    by (subst s0; solve_bypass_body Hiter even_bank).
  rewrite (for_each_append _ (λ v, (s11, bypass_channel odd_bank
    (s11 :: s12 :: s13 :: s14 :: s15 :: s16 :: s17 :: s18 :: s19 :: s20 :: B) v)))
    by (subst s1; solve_bypass_body Hiter odd_bank).
  unfold self_connections, mret, M_ret, set_connections.
  cbn [bank_a bank_b connections device topology channel app].
  unfold unconditional_closures, bypass_closures, channel_at.
  cbn [bank_a bank_b lookup list_lookup app]. reflexivity.
Qed.

End encoder.

Section clear_facts.
Import Py Spec ResistanceManager.
Context {C : Type} `{!Session C}.

Lemma value_PATH_EXISTS (st : PathCapability) :
  value PATH_EXISTS = value st ↔ st = PATH_EXISTS.
Proof. split; [by destruct st|by intros ->]. Qed.











End clear_facts.

Section quantized_targets.
Import Py Spec ResistanceManager.

Lemma quarter_times_4 : num 1 4 * int 4 = 1.
Proof. by apply (bool_decide_unpack (num 1 4 * int 4 = 1)). Qed.

Lemma quarter_nonzero : num 1 4 ≠ 0.
Proof. by apply (bool_decide_unpack (num 1 4 ≠ 0)). Qed.

Lemma four_nonzero : int 4 ≠ 0.
Proof. by apply (bool_decide_unpack (int 4 ≠ 0)). Qed.

Lemma quantize_quarters (k : Z) :
  quantize (int k * num 1 4) = int k * num 1 4.
Proof.
  unfold quantize.
  rewrite <- Qcmult_assoc, quarter_times_4, Qcmult_1_r, round_int.
  rewrite <- (Qcmult_1_r (int k / int 4)), <- quarter_times_4.
  rewrite (Qcmult_comm (num 1 4)), Qcmult_assoc.
  unfold Qcdiv. rewrite <- (Qcmult_assoc (int k)), Qcmult_inv_l by apply four_nonzero.
  by rewrite Qcmult_1_r.
Qed.

Lemma quarters_range (k : Z) :
  (0 ≤ k ≤ 64000)%Z →
  0 ≤ int k * num 1 4 ∧ int k * num 1 4 ≤ int 16000.
Proof.
  intros [Hk0 Hk1]. unfold int.
  apply Z2Qc_inj_le in Hk0, Hk1. rewrite Z2Qc_inj_0 in Hk0. split.
  - rewrite <- (Qcmult_0_l (num 1 4)). by apply Qcmult_le_compat_r.
  - replace (Qc_of_Z 16000) with (Qc_of_Z 64000 * num 1 4)
      by (by apply (bool_decide_unpack (_ = _))).
    by apply Qcmult_le_compat_r.
Qed.

Lemma catalog_feasible (k : Z) :
  (0 ≤ k < 65536)%Z →
  select_bits k 0 catalog `sublist_of` catalog ∧
  sum (select_bits k 0 catalog) = int k * num 1 4.
Proof.
  intros Hk. split; [apply select_bits_sublist|].
  rewrite catalog_pows, select_bits_sum. by rewrite Z.mod_small.
Qed.

Lemma catalog_unique (s : list Qc) (t : Qc) :
  s `sublist_of` catalog → sum s = t →
  (0 ≤ quarters t < 65536)%Z ∧ t = int (quarters t) * num 1 4 ∧
  s = binary_decomposition (quarters t).
Proof.
  intros Hs Hsum. rewrite catalog_pows in Hs.
  destruct (sublist_pows _ _ _ Hs) as (m & Hm & ->).
  rewrite select_bits_sum, Z.mod_small in Hsum by done.
  assert (Hq : quarters t = m).
  { unfold quarters. rewrite <- Hsum. unfold Qcdiv.
    rewrite <- Qcmult_assoc, Qcmult_inv_r, Qcmult_1_r by apply quarter_nonzero.
    unfold floor, int. simpl. by rewrite Z.div_1_r. }
  rewrite Hq. unfold binary_decomposition. by rewrite catalog_pows.
Qed.

Lemma greedy_catalog (t : Qc) :
  (∃ s, s `sublist_of` catalog ∧ sum s = t) →
  greedy catalog t = binary_decomposition (quarters t).
Proof.
  intros Hfeas. apply catalog_unique; [apply greedy_sublist|].
  by apply greedy_sum, count_subsets_pos.
Qed.

End quantized_targets.

Section reentrancy.
Import Py Spec ResistanceManager.
Variable set_iter : gset Qc → list Qc.

Lemma set_connections_id (self : t) :
  set_connections (connections self) self = self.
Proof. by destruct self. Qed.

Lemma set_connections_twice (c c' : list pair_t) (self : t) :
  set_connections c (set_connections c' self) = set_connections c self.
Proof. done. Qed.

(** A loop whose body only touches [connections] only touches
    [connections]. *)
Lemma for_each_frame (body : Qc → M t unit) (l : list Qc) (self : t) :
  (∀ v st, ∃ c, (body v st).2 = set_connections c st) →
  ∃ c, (for_each l body self).2 = set_connections c self.
Proof.
  intros Hbody. revert self. induction l as [|v l IH]; intros self.
  - exists (connections self). cbn. by rewrite set_connections_id.
  - cbn [for_each]. unfold mbind, M_bind.
    destruct (Hbody v self) as [c1 Hc1].
    destruct (body v self) as [[[]|e] st1]; cbn [snd] in *; subst st1.
    + destruct (IH (set_connections c1 self)) as [c2 Hc2].
      exists c2. by rewrite Hc2.
    + by exists c1.
Qed.

Lemma bypass_body_frame (d : gmap Qc string) (p : string) (v : Qc) (st : t) :
  ∃ c, ((n ← lift (dict_get d v); connections_append (p, n)) st).2 =
       set_connections c st.
Proof.
  unfold mbind, M_bind, lift, dict_get.
  destruct (d !! v); cbn.
  - by eexists.
  - exists (connections st). by rewrite set_connections_id.
Qed.

Ltac step_getitem self :=
  match goal with
  | |- context [getitem ?l ?i] =>
      destruct (getitem l i);
      [|try done; try (exists (connections self);
                       by rewrite set_connections_id)]
  end.

Lemma get_banks_to_close_by_name_frame (r : Qc) (self : t) :
  ∃ c, (get_banks_to_close_by_name set_iter r self).2 = set_connections c self.
Proof.
  unfold get_banks_to_close_by_name.
  destruct (decide _).
  2:{ exists (connections self). rewrite set_connections_id.
      unfold mbind, M_bind, lift. by destruct (format_2f r) as [[]|e]. }
  destruct (SubsetSum.get_banks_to_leave_open _ _) as [sm values].
  unfold mbind, M_bind, self_bank_a, self_bank_b, connections_clear.
  do 20 step_getitem self.
  cbn [connections_append set_connections connections app bank_a bank_b
       device topology channel].
  match goal with
  | |- context [for_each ?l ?body ?st] =>
      destruct (for_each_frame body l st) as [c1 Hc1];
      [intros; apply bypass_body_frame|];
      destruct (for_each l body st) as [[[]|e] st1]; cbn [snd] in Hc1;
      subst st1; [|by exists c1]
  end.
  match goal with
  | |- context [for_each ?l ?body ?st] =>
      destruct (for_each_frame body l st) as [c2 Hc2];
      [intros; apply bypass_body_frame|];
      destruct (for_each l body st) as [[[]|e] st2]; cbn [snd] in Hc2;
      subst st2; [|by exists c2]
  end.
  by exists c2.
Qed.

Lemma get_banks_to_close_by_name_indep (r : Qc) (self : t) (c : list pair_t) :
  (get_banks_to_close_by_name set_iter r (set_connections c self)).1 =
  (get_banks_to_close_by_name set_iter r self).1.
Proof.
  unfold get_banks_to_close_by_name.
  destruct (decide _).
  2:{ unfold mbind, M_bind, lift. by destruct (format_2f r) as [[]|e]. }
  destruct (SubsetSum.get_banks_to_leave_open _ _) as [sm values].
  unfold mbind, M_bind, self_bank_a, self_bank_b, connections_clear.
  cbn [bank_a bank_b set_connections].
  do 20 step_getitem self.
  done.
Qed.

End reentrancy.

(** * The claims *)

Section claims.
Import Py Spec ResistanceManager Examples.

Lemma quarter_int (n : Z) : quarter (int n).
Proof.
  exists (4 * n)%Z. unfold int. rewrite Z2Qc_inj_mul.
  rewrite (Qcmult_comm (Qc_of_Z 4)), <- Qcmult_assoc.
  change (Qc_of_Z 4) with (int 4).
  by rewrite (Qcmult_comm (int 4)), quarter_times_4, Qcmult_1_r.
Qed.

(** C4 (as stated).  On floats the count is not the number of subsets
    that sum to the target: for the values 0.1, 0.2, 0.3 and the target
    0.6 the code returns 1, because the three subtractions round to
    exactly zero, while no sub-sequence of the three numbers has the
    sum 0.6. *)
Lemma f_miscounts_on_floats :
  (SubsetSum64.f [f0_1; f0_2; f0_3] 0 f0_6 []).1 = 1%nat ∧
  count_subsets (Float64.to_Qc <$> [f0_1; f0_2; f0_3]) (Float64.to_Qc f0_6)
    = 0%nat.
Proof. split; vm_compute; reflexivity. Qed.

(** C4 (amended).  On inputs on which the arithmetic of the code is
    exact, and on a memo table that holds only correct entries (the empty
    table of a fresh call, or any table [f] itself has filled), [f v i r]
    returns the number of sub-sequences of [v[i:]] whose sum is [r] and
    leaves the table correct.  Past the end of the list the answer is 1
    when [r = 0] and 0 otherwise; before the end it is the count that
    skips [v[i]] plus the count that takes it. *)
Theorem f_counts_subsets_where_exact (v_list : list Qc) (i : nat) (r : Qc)
    (memo : SubsetSum.Memo) :
  exact_inputs v_list r →
  memo_ok v_list memo →
  (SubsetSum.f v_list i r memo).1 = count_subsets (drop i v_list) r ∧
  memo_ok v_list (SubsetSum.f v_list i r memo).2 ∧
  ((length v_list ≤ i)%nat →
     (SubsetSum.f v_list i r memo).1 = if decide (r = 0) then 1%nat else 0%nat) ∧
  (∀ x, v_list !! i = Some x →
     (SubsetSum.f v_list i r memo).1 =
       ((SubsetSum.f v_list (i + 1) r memo).1 +
        (SubsetSum.f v_list (i + 1) (r - x) memo).1)%nat).
Proof.
  intros _ Hm. destruct (f_spec v_list i r memo Hm) as [Hc Hm'].
  split_and!; [done|done|..].
  - intros Hi. by rewrite Hc, drop_ge, count_subsets_nil.
  - intros x Hx.
    rewrite Hc, (proj1 (f_spec v_list (i + 1) r memo Hm)),
      (proj1 (f_spec v_list (i + 1) (r - x) memo Hm)).
    rewrite (drop_S _ _ _ Hx), count_subsets_cons.
    by replace (S i) with (i + 1)%nat by lia.
Qed.

Lemma f_counts_subsets_where_exact_witness :
  (SubsetSum.f [int 1; int 2; int 3] 0 (int 3) ∅).1 =
    count_subsets (drop 0 [int 1; int 2; int 3]) (int 3) ∧
  (SubsetSum.f [int 1; int 2; int 3] 0 (int 3) ∅).1 = 2%nat.
Proof.
  split.
  - refine (proj1 (f_counts_subsets_where_exact
                     [int 1; int 2; int 3] 0 (int 3) ∅ _ _)).
    + split; [|split; [|split]].
      * repeat constructor; apply quarter_int.
      * apply quarter_int.
      * simpl. lia.
      * apply (bool_decide_unpack (_ ≤ _)). vm_compute. exact I.
    + intros i r c. rewrite lookup_empty. intros [=].
  - vm_compute. reflexivity.
Defined.

(** C6 (as stated).  On floats an unreachable target does not always
    give the empty answer: for the values 1.0 and 1e16 and the target
    1e16 + 2, which no sub-sequence sums to, the subtraction
    [(1e16 + 2) - 1.0] rounds to 1e16 and the code returns the sum 1e16
    with both values. *)
Lemma rounding_fakes_a_solution :
  SubsetSum64.get_banks_to_leave_open [f1; f1e16] f1e16_2
    = (f1e16, [f1; f1e16]) ∧
  count_subsets (Float64.to_Qc <$> [f1; f1e16]) (Float64.to_Qc f1e16_2)
    = 0%nat.
Proof. split; vm_compute; reflexivity. Qed.

(** C6 (amended).  On inputs on which the arithmetic of the code is
    exact, when no sub-sequence of the values sums to the target,
    [get_banks_to_leave_open] returns the sum 0 and the empty list, as an
    ordinary result; the value list may be empty. *)
Theorem infeasible_target_gives_empty (x_list : list Qc) (target : Qc) :
  exact_inputs x_list target →
  (∀ s, s `sublist_of` x_list → sum s ≠ target) →
  SubsetSum.get_banks_to_leave_open x_list target = (0, []).
Proof.
  intros _ Hno. rewrite SubsetSum_get_banks_to_leave_open_greedy.
  rewrite greedy_infeasible; [done|].
  destruct (count_subsets x_list target) eqn:E; [done|].
  destruct (proj1 (count_subsets_pos x_list target)) as (s & Hs & Hsum);
    [lia|]. by destruct (Hno s Hs).
Qed.

Lemma infeasible_target_gives_empty_witness :
  SubsetSum.get_banks_to_leave_open [int 1; int 2] (int 5) = (0, []).
Proof.
  apply (infeasible_target_gives_empty [int 1; int 2] (int 5)).
  - split; [|split; [|split]].
    + repeat constructor; apply quarter_int.
    + apply quarter_int.
    + simpl. lia.
    + apply (bool_decide_unpack (_ ≤ _)). vm_compute. exact I.
  - intros s Hs%elem_of_sublists. cbn in Hs.
    repeat (apply elem_of_cons in Hs as [->|Hs]);
      try (by apply (bool_decide_unpack (_ ≠ _))).
    by apply elem_of_nil in Hs.
Defined.

Lemma valid_set_iter_elem_of (set_iter : gset Qc → list Qc) :
  valid_set_iter set_iter → ∀ s x, x ∈ set_iter s → x ∈ s.
Proof. intros Hv s x Hx. rewrite (Hv s) in Hx. by apply elem_of_elements. Qed.

Lemma valid_ascending : valid_set_iter ascending.
Proof. intros s. apply merge_sort_Permutation. Qed.

Lemma valid_descending : valid_set_iter descending.
Proof.
  intros s. unfold descending. rewrite reverse_Permutation.
  apply valid_ascending.
Qed.

Lemma elements_difference (bank values : list Qc) :
  NoDup bank →
  elements ((list_to_set bank : gset Qc) ∖ list_to_set values) ≡ₚ
    filter (λ v, v ∉ values) bank.
Proof.
  intros Hnd. apply NoDup_Permutation.
  - apply NoDup_elements.
  - by apply NoDup_filter.
  - intros x. rewrite elem_of_elements, elem_of_difference,
      !elem_of_list_to_set, list_elem_of_filter. tauto.
Qed.

Lemma NoDup_even_bank : NoDup even_bank.
Proof. apply (bool_decide_unpack (NoDup even_bank)). vm_compute. exact I. Qed.

Lemma NoDup_odd_bank : NoDup odd_bank.
Proof. apply (bool_decide_unpack (NoDup odd_bank)). vm_compute. exact I. Qed.

Lemma Ok_inj {A} (x y : A) : Ok x = Ok y → x = y.
Proof. by intros [= ->]. Qed.

Lemma fst_pair {A B} (a : A) (b : B) : (a, b).1 = a.
Proof. reflexivity. Qed.

Lemma snd_pair {A B} (a : A) (b : B) : (a, b).2 = b.
Proof. reflexivity. Qed.

Lemma catalog_eq : even_bank ++ odd_bank = catalog.
Proof. reflexivity. Qed.

Lemma filter_ext_in {A} (P Q : A → Prop) `{!∀ x, Decision (P x)}
    `{!∀ x, Decision (Q x)} (l : list A) :
  (∀ x, x ∈ l → (P x ↔ Q x)) → filter P l = filter Q l.
Proof.
  induction l as [|a l IH]; intros Hl; [done|].
  rewrite !filter_cons.
  rewrite IH by (intros x Hx; apply Hl; by right).
  destruct (decide (P a)) as [Hp|Hp], (decide (Q a)) as [Hq|Hq];
    try done.
  - destruct Hq. apply (Hl a); [by left|done].
  - destruct Hp. apply (Hl a); [by left|done].
Qed.

Lemma filter_elem_of_sublist {A} `{EqDecision A} (values l : list A) :
  NoDup l → values `sublist_of` l → filter (λ v, v ∈ values) l = values.
Proof.
  intros Hnd Hsub. induction Hsub as [|x l1 l2 Hsub IH|x l1 l2 Hsub IH].
  - done.
  - apply NoDup_cons in Hnd as [Hx Hnd].
    rewrite filter_cons_True by (by left). f_equal.
    etrans; [|exact (IH Hnd)]. apply filter_ext_in.
    intros y Hy. rewrite elem_of_cons. split; [|by right].
    intros [->|?]; [done|done].
  - apply NoDup_cons in Hnd as [Hx Hnd].
    rewrite filter_cons_False; [by apply IH|].
    intros Hin. apply Hx. by eapply sublist_subseteq.
Qed.

Lemma NoDup_catalog : NoDup catalog.
Proof. apply (bool_decide_unpack (NoDup catalog)). vm_compute. exact I. Qed.

Lemma unbypassed_are_values (set_iter : gset Qc → list Qc)
    (values : list Qc) :
  valid_set_iter set_iter →
  values `sublist_of` catalog →
  filter (λ v, v ∉ set_iter (list_to_set even_bank ∖ list_to_set values) ++
                   set_iter (list_to_set odd_bank ∖ list_to_set values))
    catalog = values.
Proof.
  intros Hv Hsub.
  etrans; [|exact (filter_elem_of_sublist values catalog NoDup_catalog Hsub)].
  apply filter_ext_in. intros v Hin.
  rewrite elem_of_app, !(Hv _), !elem_of_elements, !elem_of_difference,
    !elem_of_list_to_set.
  unfold catalog in Hin. apply elem_of_app in Hin.
  destruct (decide (v ∈ values)); tauto.
Qed.

(** C1.  For every multiple [t = k/4] of a quarter ohm with
    [0 <= t <= 16000], quantization leaves [t] unchanged and the solver
    run on the 16-value catalog returns active values, taken from the
    catalog, that sum to [t]; on a manager whose two layouts have their
    ten channels the call succeeds, records and returns the plan made of
    the three unconditional closures and the bypass closures of each
    bank, and the catalog values left without a bypass closure are
    exactly the active values. *)
Theorem decompose_exact (set_iter : gset Qc → list Qc) (self : t) (k : Z) :
  valid_set_iter set_iter →
  (10 ≤ length (bank_a self))%nat → (10 ≤ length (bank_b self))%nat →
  (0 ≤ k ≤ 64000)%Z →
  let t := int k * num 1 4 in
  let values :=
    (SubsetSum.get_banks_to_leave_open (even_bank ++ odd_bank)
       (quantize t)).2 in
  quantize t = t ∧
  sum values = t ∧
  values `sublist_of` even_bank ++ odd_bank ∧
  ∃ plan close_a close_b,
    get_banks_to_close_by_name set_iter t self
      = (Ok plan, set_connections plan self) ∧
    plan = unconditional_closures self ++
           bypass_closures even_bank (bank_a self) close_a ++
           bypass_closures odd_bank (bank_b self) close_b ∧
    close_a ≡ₚ filter (λ v, v ∉ values) even_bank ∧
    close_b ≡ₚ filter (λ v, v ∉ values) odd_bank ∧
    filter (λ v, v ∉ close_a ++ close_b) (even_bank ++ odd_bank) = values.
Proof.
  intros Hv Ha Hb Hk t values.
  destruct (quarters_range k Hk) as [H0 H16].
  pose proof (get_banks_to_close_by_name_plan set_iter t self
    (valid_set_iter_elem_of set_iter Hv) H0 H16 Ha Hb) as Hplan.
  cbv zeta in Hplan. subst values.
  rewrite SubsetSum_get_banks_to_leave_open_greedy, snd_pair, catalog_eq.
  subst t. rewrite quantize_quarters in *.
  assert (Hsum : sum (greedy catalog (int k * num 1 4)) = int k * num 1 4).
  { apply greedy_sum, count_subsets_pos.
    exists (select_bits k 0 catalog). apply catalog_feasible. lia. }
  pose proof (greedy_sublist catalog (int k * num 1 4)) as Hsub.
  revert Hplan Hsum Hsub. generalize (greedy catalog (int k * num 1 4)).
  intros values Hplan Hsum Hsub.
  split; [reflexivity|]. split; [exact Hsum|]. split; [exact Hsub|].
  eexists _, (set_iter (list_to_set even_bank ∖ list_to_set values)),
             (set_iter (list_to_set odd_bank ∖ list_to_set values)).
  split; [exact Hplan|]. split; [reflexivity|]. split; [|split].
  - rewrite (Hv _). apply elements_difference, NoDup_even_bank.
  - rewrite (Hv _). apply elements_difference, NoDup_odd_bank.
  - apply (unbypassed_are_values set_iter values Hv Hsub).
Qed.

Lemma decompose_exact_witness :
  quantize (int 268 * num 1 4) = int 268 * num 1 4 ∧
  sum (SubsetSum.get_banks_to_leave_open (even_bank ++ odd_bank)
         (quantize (int 268 * num 1 4))).2 = int 268 * num 1 4 ∧
  (SubsetSum.get_banks_to_leave_open (even_bank ++ odd_bank)
     (quantize (int 268 * num 1 4))).2 `sublist_of` even_bank ++ odd_bank ∧
  ∃ plan close_a close_b,
    get_banks_to_close_by_name ascending (int 268 * num 1 4) rm0
      = (Ok plan, set_connections plan rm0) ∧
    plan = unconditional_closures rm0 ++
           bypass_closures even_bank (bank_a rm0) close_a ++
           bypass_closures odd_bank (bank_b rm0) close_b ∧
    close_a ≡ₚ
      filter (λ v, v ∉ (SubsetSum.get_banks_to_leave_open
                          (even_bank ++ odd_bank)
                          (quantize (int 268 * num 1 4))).2) even_bank ∧
    close_b ≡ₚ
      filter (λ v, v ∉ (SubsetSum.get_banks_to_leave_open
                          (even_bank ++ odd_bank)
                          (quantize (int 268 * num 1 4))).2) odd_bank ∧
    filter (λ v, v ∉ close_a ++ close_b) (even_bank ++ odd_bank) =
      (SubsetSum.get_banks_to_leave_open (even_bank ++ odd_bank)
         (quantize (int 268 * num 1 4))).2.
Proof.
  refine (decompose_exact ascending rm0 268 valid_ascending _ _ _).
  - simpl. lia.
  - simpl. lia.
  - lia.
Defined.

(** C2.  For every target that some sub-sequence of the catalog reaches,
    the solver returns the values picked by the binary digits of
    [t / 0.25] (bit 0 for 0.25, bit 15 for 8192), and that is the only
    sub-sequence of the catalog with sum [t]. *)
Theorem decompose_binary_unique (t : Qc) :
  (∃ s, s `sublist_of` even_bank ++ odd_bank ∧ sum s = t) →
  (0 ≤ quarters t < 2 ^ 16)%Z ∧
  (SubsetSum.get_banks_to_leave_open (even_bank ++ odd_bank) t).2 =
    binary_decomposition (quarters t) ∧
  ∀ s, s `sublist_of` even_bank ++ odd_bank → sum s = t →
       s = binary_decomposition (quarters t).
Proof.
  intros Hfeas. fold catalog in *.
  rewrite SubsetSum_get_banks_to_leave_open_greedy. cbn [snd].
  split; [|split].
  - destruct Hfeas as (s & Hs & Hsum). change (2 ^ 16)%Z with 65536%Z.
    by destruct (catalog_unique s t Hs Hsum).
  - by apply greedy_catalog.
  - intros s Hs Hsum. by apply catalog_unique.
Qed.

Lemma decompose_binary_unique_witness :
  (SubsetSum.get_banks_to_leave_open (even_bank ++ odd_bank)
     (int 268 * num 1 4)).2 =
    binary_decomposition (quarters (int 268 * num 1 4)).
Proof.
  refine (proj1 (proj2 (decompose_binary_unique (int 268 * num 1 4) _))).
  exists (select_bits 268 0 catalog). apply catalog_feasible. lia.
Defined.

(** C3 (as stated).  The stated behaviour, an explicit failure for a
    request outside [0, 16000], does not hold: asking for -0.01 ohm returns
    normally with the empty plan and leaves the instance untouched. *)
Lemma out_of_range_is_not_an_error :
  get_banks_to_close_by_name ascending (num (-1) 100) rm0 = (Ok [], rm0) ∧
  ¬ ∃ e, (get_banks_to_close_by_name ascending (num (-1) 100) rm0).1 = Raise e.
Proof.
  assert (E : get_banks_to_close_by_name ascending (num (-1) 100) rm0
              = (Ok [], rm0)) by (vm_compute; reflexivity).
  split; [exact E|]. rewrite E. intros [e [=]].
Qed.

(** C3 (amended).  A request outside [0, 16000] never fails with a range
    error.  When the number converts to a float (every float does, and
    every int of magnitude below 2^1024 - 2^970) the call returns
    normally with the empty plan; beyond that magnitude the formatting
    of the log message raises OverflowError.  In both cases the
    instance, its recorded connections included, is left as it was. *)
Theorem out_of_range_gives_empty_plan (set_iter : gset Qc → list Qc)
    (resistance : Qc) (self : t) :
  ¬ (0 ≤ resistance ∧ resistance ≤ int 16000) →
  get_banks_to_close_by_name set_iter resistance self =
    (if decide (float_overflow resistance)
     then Raise OverflowError else Ok [], self).
Proof.
  intros Hout. unfold get_banks_to_close_by_name.
  rewrite decide_False by done.
  unfold mbind, M_bind, lift, format_2f.
  by destruct (decide (float_overflow resistance)).
Qed.

Lemma out_of_range_gives_empty_plan_witness :
  get_banks_to_close_by_name descending (num 1600001 100) rm0
    = (Ok [], rm0) ∧
  get_banks_to_close_by_name descending (int (10 ^ 400)) rm0
    = (Raise OverflowError, rm0).
Proof.
  split.
  - rewrite (out_of_range_gives_empty_plan descending (num 1600001 100) rm0).
    + rewrite decide_False; [reflexivity|].
      apply (bool_decide_unpack (¬ _)). vm_compute. exact I.
    + apply (bool_decide_unpack (¬ _)). vm_compute. exact I.
  - rewrite (out_of_range_gives_empty_plan descending (int (10 ^ 400)) rm0).
    + rewrite decide_True; [reflexivity|].
      apply (bool_decide_unpack _). vm_compute. exact I.
    + apply (bool_decide_unpack (¬ _)). vm_compute. exact I.
Defined.

(** C5 (as stated).  Half-up tie breaking does not hold: 0.125 lies
    halfway between the steps 0 and 0.25 and is quantized to 0, the
    smaller of the two. *)
Lemma quantize_tie_goes_down :
  quantize (num 1 8) = int 0 ∧ quantize (num 1 8) ≠ num 1 4.
Proof.
  split.
  - by apply (bool_decide_unpack (_ = _)).
  - by apply (bool_decide_unpack (_ ≠ _)).
Qed.

(** C5 (amended).  Quantization returns a multiple of 0.25 at distance at
    most 0.125 from the request, and a request halfway between two steps
    goes to the step whose index is even (Python's round-half-to-even):
    [j/4 + 1/8] becomes [j/4] for even [j] and [(j+1)/4] for odd [j]. *)
Theorem quantize_nearest_ties_even :
  (∀ resistance,
     ∃ n : Z, quantize resistance = int n * num 1 4 ∧
       resistance - num 1 8 ≤ quantize resistance ∧
       quantize resistance ≤ resistance + num 1 8) ∧
  (∀ j : Z,
     quantize (int j * num 1 4 + num 1 8) =
       int (if Z.even j then j else j + 1) * num 1 4).
Proof.
  assert (Hdiv : ∀ n, int n / int 4 = int n * num 1 4).
  { intros n. unfold Qcdiv. f_equal. }
  split.
  - intros r. exists (round (r * int 4)). unfold quantize. rewrite Hdiv.
    split; [done|].
    destruct (round_bounds (r * int 4)) as [Hlo Hhi].
    set (n := int (round (r * int 4))) in *.
    assert (Hq : 0 ≤ num 1 4) by (by apply (bool_decide_unpack (_ ≤ _))).
    assert (Hr : r = r * int 4 * num 1 4).
    { rewrite <- Qcmult_assoc, (Qcmult_comm (int 4)), quarter_times_4.
      by rewrite Qcmult_1_r. }
    assert (H8 : num 1 8 = num 1 2 * num 1 4)
      by (by apply (bool_decide_unpack (_ = _))).
    split.
    + rewrite Hr at 1. rewrite H8.
      replace (r * int 4 * num 1 4 - num 1 2 * num 1 4)
        with ((r * int 4 - num 1 2) * num 1 4) by ring.
      apply Qcmult_le_compat_r; [|done].
      apply (Qcplus_le_mono_r _ _ (num 1 2)).
      by replace (r * int 4 - num 1 2 + num 1 2) with (r * int 4) by ring.
    + rewrite Hr at 1. rewrite H8.
      replace (r * int 4 * num 1 4 + num 1 2 * num 1 4)
        with ((r * int 4 + num 1 2) * num 1 4) by ring.
      apply Qcmult_le_compat_r; [|done].
      apply (Qcplus_le_mono_r _ _ (num 1 2)) in Hlo.
      by replace (n - num 1 2 + num 1 2) with n in Hlo by ring.
  - intros j. unfold quantize. rewrite Hdiv. f_equal. f_equal.
    rewrite <- round_tie. f_equal.
    rewrite Qcmult_plus_distr_l, <- Qcmult_assoc, quarter_times_4, Qcmult_1_r.
    replace (num 1 8 * int 4) with (num 1 2)
      by (by apply (bool_decide_unpack (_ = _))).
    apply Qc_is_canon. unfold int, num. simpl.
    rewrite !Qred_correct. unfold Qeq. simpl. lia.
Qed.

Lemma greedy_67 :
  greedy catalog (quantize (int 67)) = [int 1; int 2; int 64].
Proof.
  assert (E : int 67 = int 268 * num 1 4).
  { apply (bool_decide_unpack (int 67 = int 268 * num 1 4)).
    vm_compute. exact I. }
  rewrite E, quantize_quarters, greedy_catalog.
  2:{ exists (select_bits 268 0 catalog). apply catalog_feasible. lia. }
  rewrite <- E.
  apply (bool_decide_unpack (_ = _)). vm_compute. exact I.
Qed.

Lemma solve_67 :
  SubsetSum.get_banks_to_leave_open (even_bank ++ odd_bank)
    (quantize (int 67)) = (int 67, [int 1; int 2; int 64]).
Proof.
  rewrite SubsetSum_get_banks_to_leave_open_greedy. fold catalog.
  rewrite greedy_67. f_equal.
  apply (bool_decide_unpack (_ = _)). vm_compute. exact I.
Qed.

(** C7.  For a request of 67 ohm the solver leaves 1, 2 and 64 active, and
    on a manager whose two layouts have their ten channels the plan is, up
    to the order of its entries, the two engage closures, the bridge, and
    one trunk-to-bypass closure for each of the thirteen other catalog
    values. *)
Theorem plan_for_67 (set_iter : gset Qc → list Qc) (self : t) :
  valid_set_iter set_iter →
  (10 ≤ length (bank_a self))%nat → (10 ≤ length (bank_b self))%nat →
  (SubsetSum.get_banks_to_leave_open (even_bank ++ odd_bank)
     (quantize (int 67))).2 = [int 1; int 2; int 64] ∧
  ∃ plan,
    (get_banks_to_close_by_name set_iter (int 67) self).1 = Ok plan ∧
    plan ≡ₚ
      unconditional_closures self ++
      bypass_closures even_bank (bank_a self)
        [num 1 4; num 1 2; int 4; int 8; int 16; int 32] ++
      bypass_closures odd_bank (bank_b self)
        [int 128; int 256; int 512; int 1024; int 2048; int 4096; int 8192].
Proof.
  intros Hv Ha Hb. split; [rewrite solve_67; reflexivity|].
  assert (H0 : 0 ≤ int 67).
  { apply (bool_decide_unpack (0 ≤ int 67)). vm_compute. exact I. }
  assert (H16 : int 67 ≤ int 16000).
  { apply (bool_decide_unpack (int 67 ≤ int 16000)). vm_compute. exact I. }
  pose proof (get_banks_to_close_by_name_plan set_iter (int 67) self
    (valid_set_iter_elem_of set_iter Hv) H0 H16 Ha Hb) as Hplan.
  cbv zeta in Hplan.
  rewrite greedy_67 in Hplan. rewrite Hplan. cbn [fst].
  eexists. split; [reflexivity|].
  apply Permutation_app; [reflexivity|]. unfold bypass_closures.
  assert (Ha' : filter (λ v, v ∉ [int 1; int 2; int 64]) even_bank
                = [num 1 4; num 1 2; int 4; int 8; int 16; int 32]).
  { apply (bool_decide_unpack (_ = _)). vm_compute. exact I. }
  assert (Hb' : filter (λ v, v ∉ [int 1; int 2; int 64]) odd_bank
                = [int 128; int 256; int 512; int 1024; int 2048; int 4096;
                   int 8192]).
  { apply (bool_decide_unpack (_ = _)). vm_compute. exact I. }
  apply Permutation_app; apply fmap_Permutation.
  - rewrite (Hv _), elements_difference by apply NoDup_even_bank.
    rewrite Ha'. reflexivity.
  - rewrite (Hv _), elements_difference by apply NoDup_odd_bank.
    rewrite Hb'. reflexivity.
Qed.

Lemma plan_for_67_witness :
  ∃ plan,
    (get_banks_to_close_by_name ascending (int 67) rm0).1 = Ok plan ∧
    plan ≡ₚ
      unconditional_closures rm0 ++
      bypass_closures even_bank (bank_a rm0)
        [num 1 4; num 1 2; int 4; int 8; int 16; int 32] ++
      bypass_closures odd_bank (bank_b rm0)
        [int 128; int 256; int 512; int 1024; int 2048; int 4096; int 8192].
Proof.
  refine (proj2 (plan_for_67 ascending rm0 _ _ _)).
  - exact valid_ascending.
  - simpl. lia.
  - simpl. lia.
Defined.

Lemma greedy_0 : greedy catalog (quantize (int 0)) = [].
Proof.
  assert (E : int 0 = int 0 * num 1 4).
  { apply (bool_decide_unpack (int 0 = int 0 * num 1 4)).
    vm_compute. exact I. }
  rewrite E, quantize_quarters, greedy_catalog.
  2:{ exists (select_bits 0 0 catalog). apply catalog_feasible. lia. }
  rewrite <- E.
  apply (bool_decide_unpack (_ = _)). vm_compute. exact I.
Qed.

Lemma catalog_order_forces (set_iter : gset Qc → list Qc)
    (resistance : Qc) (self : t) :
  valid_set_iter set_iter →
  0 ≤ resistance → resistance ≤ int 16000 →
  (10 ≤ length (bank_a self))%nat → (10 ≤ length (bank_b self))%nat →
  (get_banks_to_close_by_name set_iter resistance self).1 =
    Ok (catalog_order_plan self
          (SubsetSum.get_banks_to_leave_open (even_bank ++ odd_bank)
             (quantize resistance)).2) →
  ∀ values, greedy catalog (quantize resistance) = values →
  bypass_closures even_bank (bank_a self)
    (set_iter (list_to_set even_bank ∖ list_to_set values)) ++
  bypass_closures odd_bank (bank_b self)
    (set_iter (list_to_set odd_bank ∖ list_to_set values)) =
  bypass_closures even_bank (bank_a self)
    (filter (λ v, v ∉ values) even_bank) ++
  bypass_closures odd_bank (bank_b self)
    (filter (λ v, v ∉ values) odd_bank).
Proof.
  intros Hv H0 H16 Ha Hb H values Hvalues.
  pose proof (get_banks_to_close_by_name_plan set_iter resistance self
    (valid_set_iter_elem_of set_iter Hv) H0 H16 Ha Hb) as Hplan.
  cbv zeta in Hplan. rewrite Hplan in H. clear Hplan.
  rewrite SubsetSum_get_banks_to_leave_open_greedy in H.
  rewrite fst_pair, snd_pair, catalog_eq, Hvalues in H.
  apply Ok_inj, app_inv_head in H. exact H.
Qed.

(** C8 (as stated).  The plan is not always in catalog order: sets may be
    visited in any order, and with the descending one a request of 0 ohm
    on the manager of channel 0 gives a plan whose bypass closures run
    from the largest value of each bank to the smallest. *)
Lemma plan_not_in_catalog_order :
  ¬ (∀ set_iter : gset Qc → list Qc, valid_set_iter set_iter →
     ∀ (resistance : Qc) (self : t),
       0 ≤ resistance → resistance ≤ int 16000 →
       (10 ≤ length (bank_a self))%nat → (10 ≤ length (bank_b self))%nat →
       (get_banks_to_close_by_name set_iter resistance self).1 =
         Ok (catalog_order_plan self
               (SubsetSum.get_banks_to_leave_open (even_bank ++ odd_bank)
                  (quantize resistance)).2)).
Proof.
  intros H.
  assert (H0 : 0 ≤ int 0).
  { apply (bool_decide_unpack (0 ≤ int 0)). vm_compute. exact I. }
  assert (H16 : int 0 ≤ int 16000).
  { apply (bool_decide_unpack (int 0 ≤ int 16000)). vm_compute. exact I. }
  assert (Ha : (10 ≤ length (bank_a rm0))%nat) by (simpl; lia).
  assert (Hb : (10 ≤ length (bank_b rm0))%nat) by (simpl; lia).
  pose proof (catalog_order_forces descending (int 0) rm0 valid_descending
    H0 H16 Ha Hb (H descending valid_descending (int 0) rm0 H0 H16 Ha Hb)
    [] greedy_0) as E.
  apply (f_equal head) in E. revert E.
  apply (bool_decide_unpack (_ ≠ _)). vm_compute. exact I.
Qed.

(** C8 (amended).  For an in-range request on a manager whose layouts
    have their ten channels, the plan is the three unconditional closures
    in the order engage A, engage B, bridge, then the bypass closures of
    Bank A, then those of Bank B; each bank's bypass closures are those of
    its values that the solver left out, in the order the set of these
    values is iterated. *)
Theorem plan_order (set_iter : gset Qc → list Qc) (resistance : Qc)
    (self : t) :
  valid_set_iter set_iter →
  0 ≤ resistance → resistance ≤ int 16000 →
  (10 ≤ length (bank_a self))%nat → (10 ≤ length (bank_b self))%nat →
  let values :=
    (SubsetSum.get_banks_to_leave_open (even_bank ++ odd_bank)
       (quantize resistance)).2 in
  ∃ close_a close_b,
    (get_banks_to_close_by_name set_iter resistance self).1 =
      Ok (unconditional_closures self ++
          bypass_closures even_bank (bank_a self) close_a ++
          bypass_closures odd_bank (bank_b self) close_b) ∧
    close_a ≡ₚ filter (λ v, v ∉ values) even_bank ∧
    close_b ≡ₚ filter (λ v, v ∉ values) odd_bank.
Proof.
  intros Hv H0 H16 Ha Hb values. subst values.
  rewrite (get_banks_to_close_by_name_plan set_iter resistance self
    (valid_set_iter_elem_of set_iter Hv) H0 H16 Ha Hb).
  rewrite SubsetSum_get_banks_to_leave_open_greedy. fold catalog.
  cbn [fst snd].
  set (values := greedy catalog (quantize resistance)).
  exists (set_iter (list_to_set even_bank ∖ list_to_set values)),
         (set_iter (list_to_set odd_bank ∖ list_to_set values)).
  split; [reflexivity|]. split.
  - rewrite (Hv _). apply elements_difference, NoDup_even_bank.
  - rewrite (Hv _). apply elements_difference, NoDup_odd_bank.
Qed.

Lemma plan_order_witness :
  ∃ close_a close_b,
    (get_banks_to_close_by_name ascending (int 67) rm0).1 =
      Ok (unconditional_closures rm0 ++
          bypass_closures even_bank (bank_a rm0) close_a ++
          bypass_closures odd_bank (bank_b rm0) close_b) ∧
    close_a ≡ₚ
      filter (λ v, v ∉ (SubsetSum.get_banks_to_leave_open
                          (even_bank ++ odd_bank) (quantize (int 67))).2)
        even_bank ∧
    close_b ≡ₚ
      filter (λ v, v ∉ (SubsetSum.get_banks_to_leave_open
                          (even_bank ++ odd_bank) (quantize (int 67))).2)
        odd_bank.
Proof.
  refine (plan_order ascending (int 67) rm0 valid_ascending _ _ _ _).
  - apply (bool_decide_unpack (0 ≤ int 67)). vm_compute. exact I.
  - apply (bool_decide_unpack (int 67 ≤ int 16000)). vm_compute. exact I.
  - simpl. lia.
  - simpl. lia.
Defined.

(** C9.  Encoding does not depend on what earlier calls left behind: a
    second call with the same request, made on the instance as the first
    call left it, returns the same outcome, and so does a call on the
    instance with any other recorded connections. *)
Theorem encoding_repeatable (set_iter : gset Qc → list Qc) (resistance : Qc)
    (self : t) :
  let first := get_banks_to_close_by_name set_iter resistance self in
  (get_banks_to_close_by_name set_iter resistance first.2).1 = first.1 ∧
  ∀ c, (get_banks_to_close_by_name set_iter resistance
          (set_connections c self)).1 = first.1.
Proof.
  intros first. split.
  - destruct (get_banks_to_close_by_name_frame set_iter resistance self)
      as [c Hc].
    subst first. rewrite Hc. apply get_banks_to_close_by_name_indep.
  - intros c. apply get_banks_to_close_by_name_indep.
Qed.

Section clearing.
Context {C : Type} `{!Session C}.



Lemma clearWholeChannel_result (self : t) (w : world C) :
  reliable_driver →
  (clearWholeChannel self w).1 =
    match bank_a self, bank_b self with
    | _ :: _, _ :: _ => Ok ()
    | _, _ => Raise IndexError
    end.
Proof.
  intros [Hq Hd].
  assert (Hstep : ∀ a b (w0 : world C),
    (checkAndDisconnect a b w0).1 = Ok ()).
  { intros a b w0. unfold checkAndDisconnect, mbind, M_bind, ni_can_connect.
    destruct (Hq (card w0) a b) as [st ->]. cbn [fst snd].
    destruct (decide _); [|done].
    unfold ni_disconnect. cbn [card].
    by destruct (Hd (card w0) a b) as [c' ->]. }
  assert (Hloop : ∀ a0 l (w0 : world C),
    (for_each l (λ n, checkAndDisconnect a0 n) w0).1 = Ok ()).
  { intros a0 l. induction l as [|n l IH]; intros w0; [done|].
    cbn [for_each]. unfold mbind, M_bind.
    pose proof (Hstep a0 n w0) as Hs.
    destruct (checkAndDisconnect a0 n w0) as [[[]|e] w1]; cbn in Hs;
      [apply IH|done]. }
  assert (Hbank : ∀ (L : list string) (w0 : world C),
    (for_each (drop 1 L) (λ n,
       a0 ← lift (getitem L 0%nat); checkAndDisconnect a0 n) w0).1 = Ok ()).
  { intros [|a0 L] w0; [done|]. apply (Hloop a0 L w0). }
  unfold clearWholeChannel.
  unfold mbind at 1, M_bind at 1.
  pose proof (Hbank (bank_a self) w) as H1.
  destruct (for_each (drop 1 (bank_a self)) _ w) as [[[]|e] w1];
    cbn in H1; [|done].
  unfold mbind at 1, M_bind at 1.
  pose proof (Hbank (bank_b self) w1) as H2.
  destruct (for_each (drop 1 (bank_b self)) _ w1) as [[[]|e] w2];
    cbn in H2; [|done].
  destruct (bank_a self) as [|a0 A]; [by destruct (bank_b self)|].
  destruct (bank_b self) as [|b0 B]; [done|].
  apply (Hstep a0 b0 w2).
Qed.


End clearing.

Lemma relays_reliable : @reliable_driver relays _.
Proof. split; intros; eexists; reflexivity. Qed.


End claims.

(** * Further properties of the code *)

Section solver_properties.
Import Py Spec SubsetSum.

Lemma exact_inputs_ints (l : list Z) (n : Z) :
  (length l ≤ 500)%nat →
  Qcabs.Qcabs (int n) + sum (Qcabs.Qcabs <$> (int <$> l)) ≤ int (2 ^ 50) →
  exact_inputs (int <$> l) (int n).
Proof.
  intros Hlen Hb. split; [|split; [|split]].
  - apply Forall_fmap, Forall_forall. intros z _. apply quarter_int.
  - apply quarter_int.
  - by rewrite length_fmap.
  - done.
Qed.

(** X1.  On inputs on which the arithmetic of the code is exact, whenever
    some sub-sequence of the values sums to the target,
    [get_banks_to_leave_open] returns the target itself as achieved sum,
    with a sub-sequence of the values that sums to it. *)
Theorem solver_finds_a_subset (x_list : list Qc) (target : Qc) :
  exact_inputs x_list target →
  (∃ s, s `sublist_of` x_list ∧ sum s = target) →
  ∃ result,
    get_banks_to_leave_open x_list target = (target, result) ∧
    result `sublist_of` x_list ∧ sum result = target.
Proof.
  intros _ Hfeas%count_subsets_pos.
  rewrite SubsetSum_get_banks_to_leave_open_greedy.
  exists (greedy x_list target).
  split; [by rewrite greedy_sum|].
  split; [apply greedy_sublist|by apply greedy_sum].
Qed.

Lemma solver_finds_a_subset_witness :
  ∃ result,
    get_banks_to_leave_open [int 3; int 5; int 2] (int 7) = (int 7, result) ∧
    result `sublist_of` [int 3; int 5; int 2] ∧ sum result = int 7.
Proof.
  apply (solver_finds_a_subset [int 3; int 5; int 2] (int 7)).
  - apply (exact_inputs_ints [3; 5; 2]%Z 7); [simpl; lia|].
    apply (bool_decide_unpack (_ ≤ _)). vm_compute. exact I.
  - exists [int 5; int 2]. split.
    + apply sublist_cons, sublist_skip, sublist_skip, sublist_nil.
    + apply (bool_decide_unpack (_ = _)). vm_compute. exact I.
Defined.

(** X2.  On inputs on which the arithmetic of the code is exact, the
    list that [get_banks_to_leave_open] returns is a sub-sequence of the
    values (same order, no value used twice), the returned sum is the sum
    of that list, and either that sum is the target or the list is
    empty. *)
Theorem solver_result_shape (x_list : list Qc) (target : Qc) :
  exact_inputs x_list target →
  let out := get_banks_to_leave_open x_list target in
  out.2 `sublist_of` x_list ∧ out.1 = sum out.2 ∧
  (out.1 = target ∨ out.2 = []).
Proof.
  intros _.
  rewrite SubsetSum_get_banks_to_leave_open_greedy. cbn [fst snd].
  split; [apply greedy_sublist|]. split; [done|].
  destruct (count_subsets x_list target) eqn:E.
  - right. by apply greedy_infeasible.
  - left. apply greedy_sum. lia.
Qed.

Lemma solver_result_shape_witness :
  let out := get_banks_to_leave_open [int 3; int 5; int 2] (int 4) in
  out.2 `sublist_of` [int 3; int 5; int 2] ∧ out.1 = sum out.2 ∧
  (out.1 = int 4 ∨ out.2 = []).
Proof.
  apply (solver_result_shape [int 3; int 5; int 2] (int 4)).
  apply (exact_inputs_ints [3; 5; 2]%Z 4); [simpl; lia|].
  apply (bool_decide_unpack (_ ≤ _)). vm_compute. exact I.
Defined.

(** X3.  The solver prefers early values: on inputs on which the
    arithmetic of the code is exact, on [x :: rest] it takes [x] exactly
    when some sub-sequence of [rest] sums to [target - x], and it then
    continues as the solver on [rest] with what remains. *)
Theorem solver_takes_first_when_possible (x : Qc) (rest : list Qc)
    (target : Qc) :
  exact_inputs (x :: rest) target →
  ((∃ s, s `sublist_of` rest ∧ sum s = target - x) →
     (get_banks_to_leave_open (x :: rest) target).2 =
       x :: (get_banks_to_leave_open rest (target - x)).2) ∧
  ((∀ s, s `sublist_of` rest → sum s ≠ target - x) →
     (get_banks_to_leave_open (x :: rest) target).2 =
       (get_banks_to_leave_open rest target).2).
Proof.
  intros _.
  rewrite !SubsetSum_get_banks_to_leave_open_greedy. cbn [snd greedy].
  split.
  - intros Hfeas%count_subsets_pos. by rewrite decide_True.
  - intros Hno. rewrite decide_False; [done|].
    intros (s & Hs & Hsum)%count_subsets_pos. by destruct (Hno s Hs).
Qed.

Lemma solver_takes_first_when_possible_witness :
  (get_banks_to_leave_open (int 3 :: [int 5; int 2]) (int 5)).2 =
    int 3 :: (get_banks_to_leave_open [int 5; int 2] (int 5 - int 3)).2.
Proof.
  refine (proj1 (solver_takes_first_when_possible (int 3) [int 5; int 2]
                   (int 5) _) _).
  - apply (exact_inputs_ints [3; 5; 2]%Z 5); [simpl; lia|].
    apply (bool_decide_unpack (_ ≤ _)). vm_compute. exact I.
  - exists [int 2]. split.
    + apply sublist_cons, sublist_skip, sublist_nil.
    + apply (bool_decide_unpack (_ = _)). vm_compute. exact I.
Defined.

(** The table only grows, and only at positions from [i] on. *)
Lemma f_memo_grows (v_list : list Qc) (i : nat) (r : Qc) (m : Memo) :
  m ⊆ (f v_list i r m).2 ∧
  ∀ j q, (j < i)%nat → (f v_list i r m).2 !! (j, q) = m !! (j, q).
Proof.
  funelim (f v_list i r m); simpl; [done|done|].
  destruct H as [Hs1 Hk1].
  destruct (f v_list (i + 1) target_Sum0 memo0) as [c1 m1]. simpl in *.
  destruct (H0 c1 m1) as [Hs2 Hk2].
  destruct (f v_list (i + 1) _ m1) as [c2 m2]. simpl in *.
  split.
  - trans m1; [done|]. trans m2; [done|].
    apply insert_subseteq. rewrite Hk2, Hk1 by lia. done.
  - intros j q Hj. rewrite lookup_insert_ne by (intros [= -> _]; lia).
    rewrite Hk2, Hk1 by lia. done.
Qed.

(** X4.  [f] never removes or changes a memo entry: on inputs on which
    the arithmetic of the code is exact, every entry present before the
    call is present, with the same count, after it; and after a call at
    a position inside the list the table holds the returned count under
    the key [(i, target_Sum)]. *)
Theorem f_memo_monotone (v_list : list Qc) (i : nat) (r : Qc)
    (memo : Memo) :
  exact_inputs v_list r →
  memo ⊆ (f v_list i r memo).2 ∧
  ((i < length v_list)%nat →
     (f v_list i r memo).2 !! (i, r) = Some (f v_list i r memo).1).
Proof.
  intros _. split; [apply f_memo_grows|].
  funelim (f v_list i r memo); simpl; intros Hi; [lia|done|].
  destruct (f v_list (i + 1) target_Sum0 memo0) as [c1 m1]. simpl.
  destruct (f v_list (i + 1) _ m1) as [c2 m2]. simpl.
  by rewrite lookup_insert_eq.
Qed.

Lemma f_memo_monotone_witness :
  (f [int 1; int 2] 0 (int 3) ∅).2 !! (0%nat, int 3)
    = Some (f [int 1; int 2] 0 (int 3) ∅).1.
Proof.
  refine (proj2 (f_memo_monotone [int 1; int 2] 0 (int 3) ∅ _) _).
  - apply (exact_inputs_ints [1; 2]%Z 3); [simpl; lia|].
    apply (bool_decide_unpack (_ ≤ _)). vm_compute. exact I.
  - simpl. lia.
Defined.

(** X5.  On inputs on which the arithmetic of the code is exact,
    starting [g] on a memo table that holds correct counts for the same
    list (for instance the table an earlier solve over that list left)
    gives the same subset as starting on the empty table, and leaves a
    table that is again correct. *)
Theorem g_memo_transparent (v_list : list Qc) (target : Qc) (memo : Memo) :
  exact_inputs v_list target →
  memo_ok v_list memo →
  (g v_list v_list target memo).1.1 = (g v_list v_list target ∅).1.1 ∧
  (g v_list v_list target memo).1.1 =
    (get_banks_to_leave_open v_list target).2 ∧
  memo_ok v_list (g v_list v_list target memo).2.
Proof.
  intros _ Hm. destruct (g_spec v_list target memo Hm) as [Hg Hm'].
  destruct (g_spec v_list target ∅ (memo_ok_empty _)) as [Hg0 _].
  rewrite SubsetSum_get_banks_to_leave_open_greedy. cbn [snd].
  by rewrite Hg, Hg0.
Qed.

Lemma g_memo_transparent_witness :
  (g [int 1; int 2] [int 1; int 2] (int 3)
     (f [int 1; int 2] 0 (int 3) ∅).2).1.1 =
  (g [int 1; int 2] [int 1; int 2] (int 3) ∅).1.1.
Proof.
  refine (proj1 (g_memo_transparent [int 1; int 2] (int 3)
                   (f [int 1; int 2] 0 (int 3) ∅).2 _ _)).
  - apply (exact_inputs_ints [1; 2]%Z 3); [simpl; lia|].
    apply (bool_decide_unpack (_ ≤ _)). vm_compute. exact I.
  - apply f_spec, memo_ok_empty.
Defined.

End solver_properties.

Section encoder_properties.
Import Py Spec ResistanceManager Examples.

Lemma quantize_steps (r : Qc) :
  quantize r = int (round (r * int 4)) * num 1 4.
Proof. unfold quantize, Qcdiv. f_equal. Qed.

Lemma round_in_range (x : Qc) (n : Z) :
  (0 ≤ n)%Z → 0 ≤ x → x ≤ int n → (0 ≤ round x ≤ n)%Z.
Proof.
  intros Hn H0 Hx. destruct (round_bounds x) as [Hlo Hhi].
  assert (Hhalf : 0 < num 1 2)
    by (apply (bool_decide_unpack (_ < _)); vm_compute; exact I).
  assert (Hone : num 1 2 + num 1 2 = int 1)
    by (apply (bool_decide_unpack (_ = _)); vm_compute; exact I).
  split.
  - assert (Hlt : int (-1) < int (round x)); [|by apply Z2Qc_inj_lt in Hlt; lia].
    apply (Qcplus_lt_mono_r _ _ (num 1 2)).
    apply Qclt_le_trans with 0.
    + apply (bool_decide_unpack (_ < _)). vm_compute. exact I.
    + apply Qcle_trans with x; [done|]. done.
  - assert (Hlt : int (round x) < int (n + 1));
      [|by apply Z2Qc_inj_lt in Hlt; lia].
    apply (Qcplus_lt_mono_r _ _ (- num 1 2)).
    apply Qcle_lt_trans with x.
    + replace (int (round x) + - num 1 2) with (int (round x) - num 1 2)
        by ring. done.
    + apply Qcle_lt_trans with (int n); [done|].
      unfold int. rewrite Z2Qc_inj_add. fold (int n) (int 1).
      rewrite <- Hone.
      replace (int n + (num 1 2 + num 1 2) + - num 1 2)
        with (int n + num 1 2) by ring.
      rewrite <- (Qcplus_0_r (int n)) at 1.
      by apply Qcplus_lt_mono_l.
Qed.

Lemma quantize_in_range (r : Qc) :
  0 ≤ r → r ≤ int 16000 →
  ∃ k, (0 ≤ k ≤ 64000)%Z ∧ quantize r = int k * num 1 4.
Proof.
  intros H0 H16. exists (round (r * int 4)).
  split; [|apply quantize_steps].
  assert (H4 : 0 ≤ int 4)
    by (apply (bool_decide_unpack (_ ≤ _)); vm_compute; exact I).
  apply round_in_range; [lia|..].
  - rewrite <- (Qcmult_0_l (int 4)). by apply Qcmult_le_compat_r.
  - replace (int 64000) with (int 16000 * int 4)
      by (apply (bool_decide_unpack (_ = _)); vm_compute; exact I).
    by apply Qcmult_le_compat_r.
Qed.

(** X6.  For an in-range request quantization is idempotent and stays
    in range: for [0 <= r <= 16000] the quantized value again lies in
    [0, 16000] and quantizing it again changes nothing. *)
Theorem quantize_idempotent_in_range (r : Qc) :
  0 ≤ r → r ≤ int 16000 →
  quantize (quantize r) = quantize r ∧
  0 ≤ quantize r ∧ quantize r ≤ int 16000.
Proof.
  intros H0 H16. split.
  - rewrite (quantize_steps r). apply quantize_quarters.
  - destruct (quantize_in_range r H0 H16) as (k & Hk & ->).
    by apply quarters_range.
Qed.

Lemma quantize_idempotent_in_range_witness :
  quantize (quantize (num 101 10)) = quantize (num 101 10) ∧
  0 ≤ quantize (num 101 10) ∧ quantize (num 101 10) ≤ int 16000.
Proof.
  apply (quantize_idempotent_in_range (num 101 10)).
  - apply (bool_decide_unpack (_ ≤ _)). vm_compute. exact I.
  - apply (bool_decide_unpack (_ ≤ _)). vm_compute. exact I.
Defined.

(** X7.  Every in-range request, whether or not it is a multiple of 0.25,
    is realised exactly at its quantized value: the solver run inside
    [get_banks_to_close_by_name] returns the quantized request as achieved
    sum, with catalog values that sum to it. *)
Theorem in_range_request_is_realised (r : Qc) :
  0 ≤ r → r ≤ int 16000 →
  ∃ values,
    SubsetSum.get_banks_to_leave_open (even_bank ++ odd_bank) (quantize r)
      = (quantize r, values) ∧
    sum values = quantize r ∧
    values `sublist_of` even_bank ++ odd_bank.
Proof.
  intros H0 H16. destruct (quantize_in_range r H0 H16) as (k & Hk & ->).
  rewrite SubsetSum_get_banks_to_leave_open_greedy, catalog_eq.
  assert (Hsum : sum (greedy catalog (int k * num 1 4)) = int k * num 1 4).
  { apply greedy_sum, count_subsets_pos.
    exists (select_bits k 0 catalog). apply catalog_feasible. lia. }
  eexists. split; [by rewrite Hsum|]. split; [done|apply greedy_sublist].
Qed.

Lemma in_range_request_is_realised_witness :
  ∃ values,
    SubsetSum.get_banks_to_leave_open (even_bank ++ odd_bank)
      (quantize (num 101 10)) = (quantize (num 101 10), values) ∧
    sum values = quantize (num 101 10) ∧
    values `sublist_of` even_bank ++ odd_bank.
Proof.
  apply (in_range_request_is_realised (num 101 10)).
  - apply (bool_decide_unpack (_ ≤ _)). vm_compute. exact I.
  - apply (bool_decide_unpack (_ ≤ _)). vm_compute. exact I.
Defined.

End encoder_properties.

Section plan_properties.
Import Py Spec ResistanceManager Examples.

Lemma values_and_rest (values bank : list Qc) :
  NoDup bank → values ⊆ bank → NoDup values →
  values ++ filter (λ v, v ∉ values) bank ≡ₚ bank.
Proof.
  intros Hnd Hsub Hndv.
  rewrite <- (filter_app_complement (λ v, v ∈ values) bank) at 2.
  apply Permutation_app; [|done].
  apply NoDup_Permutation; [done|by apply NoDup_filter|].
  intros x. rewrite list_elem_of_filter. split; [|tauto].
  intros Hx. split; [done|by apply Hsub].
Qed.

(** X8.  Complement completeness: on a successful call the active values
    (those the solver returns) and the values whose bypass closures are in
    the plan together are exactly the 16 catalog values, each once; the
    plan therefore has [19 - number of active values] closures. *)
Theorem active_and_bypassed_partition (set_iter : gset Qc → list Qc)
    (resistance : Qc) (self : t) :
  valid_set_iter set_iter →
  0 ≤ resistance → resistance ≤ int 16000 →
  (10 ≤ length (bank_a self))%nat → (10 ≤ length (bank_b self))%nat →
  let values :=
    (SubsetSum.get_banks_to_leave_open (even_bank ++ odd_bank)
       (quantize resistance)).2 in
  ∃ plan close_a close_b,
    (get_banks_to_close_by_name set_iter resistance self).1 = Ok plan ∧
    plan = unconditional_closures self ++
           bypass_closures even_bank (bank_a self) close_a ++
           bypass_closures odd_bank (bank_b self) close_b ∧
    values ++ close_a ++ close_b ≡ₚ even_bank ++ odd_bank ∧
    (length plan + length values = 19)%nat.
Proof.
  intros Hv H0 H16 Ha Hb values. subst values.
  rewrite (get_banks_to_close_by_name_plan set_iter resistance self
    (valid_set_iter_elem_of set_iter Hv) H0 H16 Ha Hb).
  rewrite SubsetSum_get_banks_to_leave_open_greedy, catalog_eq.
  rewrite fst_pair, snd_pair.
  set (values := greedy catalog (quantize resistance)).
  assert (Hsub : values `sublist_of` catalog) by apply greedy_sublist.
  assert (Hperm : values ++
            set_iter (list_to_set even_bank ∖ list_to_set values) ++
            set_iter (list_to_set odd_bank ∖ list_to_set values)
            ≡ₚ catalog).
  { rewrite !(Hv _), !elements_difference
      by (apply NoDup_even_bank || apply NoDup_odd_bank).
    rewrite <- filter_app, catalog_eq.
    apply values_and_rest; [apply NoDup_catalog| |].
    - by apply sublist_subseteq.
    - exact (sublist_NoDup _ _ NoDup_catalog Hsub). }
  eexists _, _, _. split; [reflexivity|]. split; [reflexivity|].
  split; [exact Hperm|].
  apply Permutation_length in Hperm.
  rewrite !length_app in Hperm. unfold bypass_closures, unconditional_closures.
  rewrite !length_app, !length_fmap.
  replace (length catalog) with 16%nat in Hperm by reflexivity.
  cbn [length]. lia.
Qed.

Lemma active_and_bypassed_partition_witness :
  ∃ plan close_a close_b,
    (get_banks_to_close_by_name descending (int 67) rm0).1 = Ok plan ∧
    plan = unconditional_closures rm0 ++
           bypass_closures even_bank (bank_a rm0) close_a ++
           bypass_closures odd_bank (bank_b rm0) close_b ∧
    (SubsetSum.get_banks_to_leave_open (even_bank ++ odd_bank)
       (quantize (int 67))).2 ++ close_a ++ close_b
      ≡ₚ even_bank ++ odd_bank ∧
    (length plan +
     length (SubsetSum.get_banks_to_leave_open (even_bank ++ odd_bank)
               (quantize (int 67))).2 = 19)%nat.
Proof.
  refine (active_and_bypassed_partition descending (int 67) rm0
            valid_descending _ _ _ _).
  - apply (bool_decide_unpack (_ ≤ _)). vm_compute. exact I.
  - apply (bool_decide_unpack (_ ≤ _)). vm_compute. exact I.
  - simpl. lia.
  - simpl. lia.
Defined.

Lemma getitem_cases {A} (l : list A) (i : nat) :
  (∃ a, getitem l i = Ok a ∧ (i < length l)%nat) ∨
  (getitem l i = Raise IndexError ∧ (length l ≤ i)%nat).
Proof.
  unfold getitem. destruct (l !! i) as [a|] eqn:E.
  - left. exists a. split; [done|]. by eapply lookup_lt_Some.
  - right. split; [done|]. by apply lookup_ge_None.
Qed.

Ltac step_layout :=
  match goal with
  | |- context [getitem ?l ?i] =>
      let Hi := fresh "Hi" in
      destruct (getitem_cases l i) as [(? & -> & Hi)|[-> Hi]];
      [|reflexivity]
  end.

Lemma get_banks_short_layout (set_iter : gset Qc → list Qc)
    (resistance : Qc) (self : t) :
  0 ≤ resistance → resistance ≤ int 16000 →
  (length (bank_a self) < 10 ∨ length (bank_b self) < 10)%nat →
  get_banks_to_close_by_name set_iter resistance self
    = (Raise IndexError, self).
Proof.
  intros H0 H16 Hshort. unfold get_banks_to_close_by_name.
  rewrite decide_True by done.
  destruct (SubsetSum.get_banks_to_leave_open _ _) as [sm values].
  unfold mbind, M_bind, self_bank_a, self_bank_b.
  do 20 step_layout. lia.
Qed.

(** X9.  An in-range request on an instance one of whose layouts has
    fewer than ten channels raises IndexError, and does so before
    [self.connections] is cleared: the instance is left as it was. *)
Theorem short_layout_raises (set_iter : gset Qc → list Qc) (resistance : Qc)
    (self : t) :
  0 ≤ resistance → resistance ≤ int 16000 →
  (length (bank_a self) < 10 ∨ length (bank_b self) < 10)%nat →
  get_banks_to_close_by_name set_iter resistance self
    = (Raise IndexError, self).
Proof. apply get_banks_short_layout. Qed.

Lemma short_layout_raises_witness :
  get_banks_to_close_by_name ascending (int 67)
    (Self "PXI1Slot7" "2722/Independent" 0 [("b0", "b0engage")]
       ["b0"; "b0engage"] ["b1"; "b1engage"])
  = (Raise IndexError,
     Self "PXI1Slot7" "2722/Independent" 0 [("b0", "b0engage")]
       ["b0"; "b0engage"] ["b1"; "b1engage"]).
Proof.
  apply short_layout_raises.
  - apply (bool_decide_unpack (_ ≤ _)). vm_compute. exact I.
  - apply (bool_decide_unpack (_ ≤ _)). vm_compute. exact I.
  - left. simpl. lia.
Defined.



End plan_properties.

Section orchestration.
Import Py Spec ResistanceManager Examples.
Context {C : Type} `{!Session C}.


(** X11.  With an out-of-range request [setResistance] clears the
    channel exactly as [clearWholeChannel] does and connects nothing;
    the instance is unchanged.  It returns normally, unless the clearing
    raised or the request is an int too large for a float, for which the
    log message raises OverflowError after the clearing. *)
Theorem setResistance_out_of_range (set_iter : gset Qc → list Qc)
    (resistance : Qc) (self : t) (w : world C) :
  ¬ (0 ≤ resistance ∧ resistance ≤ int 16000) →
  setResistance set_iter resistance (self, w) =
    (match (clearWholeChannel self w).1 with
     | Ok _ => if decide (float_overflow resistance)
               then Raise OverflowError else Ok ()
     | Raise e => Raise e
     end, (self, (clearWholeChannel self w).2)).
Proof.
  intros Hout. unfold setResistance, zoom_l, zoom_r, mbind, M_bind.
  cbn [fst snd].
  destruct (clearWholeChannel self w) as [[[]|e] w']; cbn [fst snd]; [|done].
  unfold get_banks_to_close_by_name. rewrite decide_False by done.
  unfold mbind, M_bind, lift, format_2f.
  by destruct (decide (float_overflow resistance)).
Qed.


(** X13.  With an in-range request on an instance one of whose layouts
    has fewer than ten channels, [setResistance] has already cleared the
    channel when IndexError is raised: the relays opened by the clearing
    stay open, nothing is connected and the instance is unchanged. *)
Theorem setResistance_short_layout (set_iter : gset Qc → list Qc)
    (resistance : Qc) (self : t) (w : world C) :
  0 ≤ resistance → resistance ≤ int 16000 →
  (length (bank_a self) < 10 ∨ length (bank_b self) < 10)%nat →
  setResistance set_iter resistance (self, w) =
    (match (clearWholeChannel self w).1 with
     | Ok _ => Raise IndexError
     | Raise e => Raise e
     end, (self, (clearWholeChannel self w).2)).
Proof.
  intros H0 H16 Hshort.
  unfold setResistance, zoom_l, zoom_r, mbind, M_bind. cbn [fst snd].
  destruct (clearWholeChannel self w) as [[[]|e] w']; cbn [fst snd]; [|done].
  by rewrite (get_banks_short_layout set_iter resistance self H0 H16 Hshort).
Qed.

(** How clearing composes: [opened w out pairs] says that a normal return
    leaves every pair of [pairs] without a path and makes no path appear. *)
Lemma checkAndDisconnect_opens (a b : string) (w : world C) :
  disconnect_opens →
  (checkAndDisconnect a b w).1 = Ok () →
  can_connect (card (checkAndDisconnect a b w).2) a b ≠ Ok PATH_EXISTS ∧
  ∀ x y, can_connect (card w) x y ≠ Ok PATH_EXISTS →
         can_connect (card (checkAndDisconnect a b w).2) x y
           ≠ Ok PATH_EXISTS.
Proof.
  intros Hlaw. unfold checkAndDisconnect, mbind, M_bind, ni_can_connect.
  destruct (can_connect (card w) a b) as [st|e] eqn:Hq; cbn [fst snd];
    [|done].
  destruct (decide (value PATH_EXISTS = value st)) as [E|E].
  - unfold ni_disconnect. cbn [card trace].
    destruct (disconnect (card w) a b) as [c'|e] eqn:Hd; cbn [fst snd card];
      [|done].
    intros _. by apply (Hlaw (card w)).
  - unfold mret, M_ret. cbn [fst snd card]. intros _. split; [|done].
    rewrite Hq. intros [= ->]. by apply E.
Qed.

Lemma for_each_opens (a0 : string) (l : list string) (w : world C) :
  disconnect_opens →
  let out := for_each l (λ n, checkAndDisconnect a0 n) w in
  out.1 = Ok () →
  all_open (card out.2) ((λ n, (a0, n)) <$> l) ∧
  ∀ x y, can_connect (card w) x y ≠ Ok PATH_EXISTS →
         can_connect (card out.2) x y ≠ Ok PATH_EXISTS.
Proof.
  intros Hlaw. revert w. induction l as [|n l IH]; intros w; cbn [for_each].
  - intros _. split; [|done]. intros p Hp. by apply elem_of_nil in Hp.
  - unfold mbind, M_bind.
    pose proof (checkAndDisconnect_opens a0 n w Hlaw) as Hstep.
    destruct (checkAndDisconnect a0 n w) as [[[]|e] w1]; cbn [fst snd] in *;
      [|done].
    destruct (Hstep eq_refl) as [Hn Hkeep].
    intros Hok. destruct (IH w1 Hok) as [Hall Hkeep'].
    split.
    + intros p [->|Hp]%elem_of_cons; [by apply Hkeep'|by apply Hall].
    + intros x y Hxy. by apply Hkeep', Hkeep.
Qed.

Lemma bind_Ok {St A B} (m : M St A) (k : A → M St B) (s s' : St) (r : B) :
  (m ≫= k) s = (Ok r, s') →
  ∃ a s1, m s = (Ok a, s1) ∧ k a s1 = (Ok r, s').
Proof.
  unfold mbind, M_bind. destruct (m s) as [[a|e] s1]; [|done].
  intros Hk. by exists a, s1.
Qed.

Lemma for_each_bank_opens (L : list string) (w w' : world C) :
  disconnect_opens →
  for_each (drop 1 L) (λ n,
    a0 ← lift (getitem L 0%nat); checkAndDisconnect a0 n) w = (Ok (), w') →
  all_open (card w') ((λ n, (channel_at L 0, n)) <$> drop 1 L) ∧
  ∀ x y, can_connect (card w) x y ≠ Ok PATH_EXISTS →
         can_connect (card w') x y ≠ Ok PATH_EXISTS.
Proof.
  intros Hlaw. destruct L as [|a0 L]; cbn [drop].
  - intros [= <-]. split; [|done]. intros p Hp. by apply elem_of_nil in Hp.
  - intros E. pose proof (for_each_opens a0 L w Hlaw) as H.
    change (for_each L (λ n, checkAndDisconnect a0 n) w = (Ok (), w')) in E.
    rewrite E in H. by apply H.
Qed.

(** X14.  On a driver whose disconnect opens the pair it is given and
    creates no path, a normal return of [clearWholeChannel] leaves no
    path between the trunk of either bank and any of its channels, nor
    between the two trunks. *)
Theorem clearWholeChannel_opens_all (self : t) (w : world C) :
  disconnect_opens →
  (clearWholeChannel self w).1 = Ok () →
  all_open (card (clearWholeChannel self w).2) (channel_pairs self).
Proof.
  intros Hlaw. destruct (clearWholeChannel self w) as [r w'] eqn:E.
  cbn [fst snd]. intros ->. revert E. unfold clearWholeChannel, channel_pairs.
  intros ([] & w1 & E1 & ([] & w2 & E2 & E3)%bind_Ok)%bind_Ok.
  destruct (for_each_bank_opens _ _ _ Hlaw E1) as [HallA HkeepA].
  destruct (for_each_bank_opens _ _ _ Hlaw E2) as [HallB HkeepB].
  destruct (bank_a self) as [|a0 A']; [done|].
  destruct (bank_b self) as [|b0 B']; [done|].
  change (checkAndDisconnect a0 b0 w2 = (Ok (), w')) in E3.
  pose proof (checkAndDisconnect_opens a0 b0 w2 Hlaw) as H3.
  rewrite E3 in H3. destruct (H3 eq_refl) as [Hab Hkeep].
  intros p [Hp|[Hp|Hp]%elem_of_app]%elem_of_app.
  - by apply Hkeep, HkeepB, HallA.
  - by apply Hkeep, HallB.
  - apply list_elem_of_singleton in Hp as ->. exact Hab.
Qed.

(** X15.  On a driver none of whose calls raises, [clearWholeChannel]
    returns normally when both bank lists are non-empty, and raises
    IndexError (at the bridge pair, after the loops) when one is empty. *)
Theorem clearWholeChannel_outcome (self : t) (w : world C) :
  reliable_driver →
  (clearWholeChannel self w).1 =
    match bank_a self, bank_b self with
    | _ :: _, _ :: _ => Ok ()
    | _, _ => Raise IndexError
    end.
Proof. apply clearWholeChannel_result. Qed.

End orchestration.

Section orchestration_witnesses.
Import Py Spec ResistanceManager Examples.

Lemma relays_disconnect_opens : @disconnect_opens relays _.
Proof.
  intros c c' a b [= <-]. cbn. split.
  - intros E. case_bool_decide as Hin; [|done].
    apply list_elem_of_filter in Hin as [Hne _]. by destruct Hne.
  - intros x y Hxy E. apply Hxy.
    case_bool_decide as Hin; [|done].
    apply list_elem_of_filter in Hin as [_ Hin].
    by rewrite bool_decide_eq_true_2.
Qed.

Lemma setResistance_out_of_range_witness :
  setResistance ascending (int (-1))
    (rm0, World (Relays [("b0", "b0r1")]) []) =
  (match (clearWholeChannel rm0 (World (Relays [("b0", "b0r1")]) [])).1 with
   | Ok _ => if decide (float_overflow (int (-1)))
             then Raise OverflowError else Ok ()
   | Raise e => Raise e
   end,
   (rm0, (clearWholeChannel rm0 (World (Relays [("b0", "b0r1")]) [])).2)).
Proof.
  apply (setResistance_out_of_range ascending (int (-1)) rm0).
  apply (bool_decide_unpack (¬ _)). vm_compute. exact I.
Defined.


Lemma setResistance_short_layout_witness :
  setResistance ascending (int 67)
    (Self "PXI1Slot7" "2722/Independent" 0 [] ["b0"; "b0engage"] ["b1"],
     World (Relays []) []) =
  (match (clearWholeChannel
            (Self "PXI1Slot7" "2722/Independent" 0 []
               ["b0"; "b0engage"] ["b1"])
            (World (Relays []) [])).1 with
   | Ok _ => Raise IndexError
   | Raise e => Raise e
   end,
   (Self "PXI1Slot7" "2722/Independent" 0 [] ["b0"; "b0engage"] ["b1"],
    (clearWholeChannel
       (Self "PXI1Slot7" "2722/Independent" 0 []
          ["b0"; "b0engage"] ["b1"])
       (World (Relays []) [])).2)).
Proof.
  apply setResistance_short_layout.
  - apply (bool_decide_unpack (_ ≤ _)). vm_compute. exact I.
  - apply (bool_decide_unpack (_ ≤ _)). vm_compute. exact I.
  - left. simpl. lia.
Defined.

Lemma clearWholeChannel_opens_all_witness :
  all_open
    (card (clearWholeChannel rm0
             (World (Relays [("b0", "b0r1"); ("b0", "b1")]) [])).2)
    (channel_pairs rm0).
Proof.
  apply (clearWholeChannel_opens_all rm0
           (World (Relays [("b0", "b0r1"); ("b0", "b1")]) [])).
  - exact relays_disconnect_opens.
  - vm_compute. reflexivity.
Defined.

Lemma clearWholeChannel_outcome_witness :
  (clearWholeChannel
     (Self "PXI1Slot7" "2722/Independent" 0 [] [] ["b1"; "b1engage"])
     (World (Relays [("b1", "b1engage")]) [])).1 = Raise IndexError.
Proof.
  apply (clearWholeChannel_outcome
           (Self "PXI1Slot7" "2722/Independent" 0 [] [] ["b1"; "b1engage"])
           (World (Relays [("b1", "b1engage")]) [])).
  exact relays_reliable.
Defined.

End orchestration_witnesses.

Section channel_listing.
Import Py Spec ResistanceManager Examples.
Context {C : Type} `{!ChannelNames C}.

Lemma read_channel_names_sound (c : C) (n i : nat) (acc out : list string) :
  read_channel_names c n i acc = Ok out →
  ∃ names,
    out = acc ++ names ∧ (length names ≤ n)%nat ∧ lists_from c i names ∧
    (length names = n ∨
     get_channel_name c (i + length names) = Raise DriverError).
Proof.
  revert i acc. induction n as [|n IH]; intros i acc; cbn [read_channel_names].
  - intros [= <-]. exists []. rewrite app_nil_r.
    split_and!; [done|done| |by left]. intros k name Hk. done.
  - destruct (get_channel_name c i) as [name|e] eqn:E.
    + intros (names & -> & Hlen & Hlist & Hstop)%IH.
      exists (name :: names). rewrite <- app_assoc. cbn [app length].
      split_and!; [done|lia| |].
      * intros [|k] name' Hk.
        -- rewrite Nat.add_0_r. by injection Hk as <-.
        -- rewrite <- Nat.add_succ_comm. by apply Hlist.
      * destruct Hstop as [<-|Hstop]; [by left|right].
        by rewrite <- Nat.add_succ_comm.
    + destruct e; intros [= <-]. exists []. rewrite app_nil_r.
      cbn [length]. rewrite Nat.add_0_r.
      split_and!; [done|lia| |by right]. intros k name Hk. done.
Qed.

Lemma read_channel_names_complete (c : C) (n i : nat)
    (acc names : list string) :
  lists_from c i names → (length names ≤ n)%nat →
  (length names = n ∨
   get_channel_name c (i + length names) = Raise DriverError) →
  read_channel_names c n i acc = Ok (acc ++ names).
Proof.
  revert n i acc. induction names as [|name names IH]; intros n i acc.
  - intros _ _ Hstop. cbn [length] in Hstop. rewrite Nat.add_0_r in Hstop.
    rewrite app_nil_r. destruct n as [|n]; [done|].
    destruct Hstop as [?|Hstop]; [done|].
    cbn [read_channel_names]. by rewrite Hstop.
  - intros Hlist Hlen Hstop. cbn [length] in Hlen, Hstop.
    destruct n as [|n]; [lia|]. cbn [read_channel_names].
    pose proof (Hlist 0%nat name eq_refl) as H0. rewrite Nat.add_0_r in H0.
    rewrite H0, (IH n (S i) (acc ++ [name])).
    + by rewrite <- app_assoc.
    + intros k name' Hk. rewrite Nat.add_succ_comm. by apply (Hlist (S k)).
    + lia.
    + destruct Hstop as [Hstop|Hstop]; [left; lia|right].
      by rewrite Nat.add_succ_comm.
Qed.

(** X16.  [getChannels] reads the names the card lists from index 1 up
    to the first index the driver rejects, and nothing beyond: when the
    card lists [names] at 1, 2, ... and rejects the next index, bank A is
    the names that start with "b<2*channel>", bank B those that start with
    "b<2*channel+1>", both in the order of the card. *)
Theorem getChannels_reads_until_error (channel : nat) (c : C)
    (names : list string) :
  lists_from c 1 names →
  (Z.of_nat (length names) < 99998)%Z →
  get_channel_name c (1 + length names) = Raise DriverError →
  getChannels channel c =
    Ok (filter (λ n, String.prefix (prefix_bank_A channel) n) names,
        filter (λ n, String.prefix (prefix_bank_B channel) n) names).
Proof.
  intros Hlist Hlen Hstop. unfold getChannels.
  rewrite (read_channel_names_complete c _ 1 [] names Hlist);
    [done|lia|by right].
Qed.

(** X17.  Whatever the driver does, the lists a normal return of
    [getChannels] gives hold only names the card listed, in the card's
    order, each with the prefix of its bank; at most 99998 names are
    read. *)
Theorem getChannels_banks_sound (channel : nat) (c : C)
    (b0 b1 : list string) :
  getChannels channel c = Ok (b0, b1) →
  ∃ names,
    lists_from c 1 names ∧ (Z.of_nat (length names) ≤ 99998)%Z ∧
    b0 `sublist_of` names ∧ b1 `sublist_of` names ∧
    Forall (λ n, String.prefix (prefix_bank_A channel) n) b0 ∧
    Forall (λ n, String.prefix (prefix_bank_B channel) n) b1.
Proof.
  unfold getChannels.
  destruct (read_channel_names c _ 1 []) as [out|e] eqn:E; [|done].
  apply read_channel_names_sound in E as (names & -> & Hlen & Hlist & _).
  intros [= <- <-]. exists names. cbn [app].
  split_and!; [done|lia|apply sublist_filter..| |].
  - apply Forall_forall. by intros n [Hn _]%list_elem_of_filter.
  - apply Forall_forall. by intros n [Hn _]%list_elem_of_filter.
Qed.

(** X18.  A driver exception other than [niswitch.errors.Error] is not
    caught by the reading loop: [getChannels] raises it, however many
    names were read before. *)
Theorem getChannels_propagates (channel : nat) (c : C) (names : list string)
    (e : exn) :
  lists_from c 1 names →
  (Z.of_nat (length names) < 99998)%Z →
  get_channel_name c (1 + length names) = Raise e →
  e ≠ DriverError →
  getChannels channel c = Raise e.
Proof.
  intros Hlist Hlen Hstop He. unfold getChannels.
  assert (Hread : ∀ n i acc (l : list string),
    lists_from c i l → (length l < n)%nat →
    get_channel_name c (i + length l) = Raise e →
    read_channel_names c n i acc = Raise e).
  { clear Hlist Hlen Hstop names.
    intros n i acc l. revert n i acc.
    induction l as [|name l IH]; intros n i acc Hl Hn Hs.
    - destruct n as [|n]; [cbn [length] in Hn; lia|].
      cbn [read_channel_names]. cbn [length] in Hs.
      rewrite Nat.add_0_r in Hs. rewrite Hs. by destruct e.
    - cbn [length] in Hn, Hs. destruct n as [|n]; [lia|].
      cbn [read_channel_names].
      pose proof (Hl 0%nat name eq_refl) as H0. rewrite Nat.add_0_r in H0.
      rewrite H0. apply IH.
      + intros k name' Hk. rewrite Nat.add_succ_comm. by apply (Hl (S k)).
      + lia.
      + by rewrite Nat.add_succ_comm. }
  rewrite (Hread _ 1%nat [] names Hlist); [done|lia|done].
Qed.

End channel_listing.

Section bank_prefixes.
Import Py Spec ResistanceManager Examples.

Lemma string_app_cons (a : Ascii.ascii) (s r : string) :
  String a s +:+ r = String a (s +:+ r).
Proof. reflexivity. Qed.

Lemma string_app_assoc (s1 s2 s3 : string) :
  s1 +:+ (s2 +:+ s3) = (s1 +:+ s2) +:+ s3.
Proof.
  induction s1 as [|a s1 IH]; [done|]. by rewrite !string_app_cons, IH.
Qed.

Lemma string_prefix_app (p s : string) :
  String.prefix p s ↔ ∃ r, s = p +:+ r.
Proof.
  revert s. induction p as [|a p IH]; intros s.
  - split; [by exists s|by destruct s].
  - destruct s as [|b s]; cbn [String.prefix].
    + split; [done|]. intros [r Hr]. by rewrite string_app_cons in Hr.
    + destruct (Ascii.ascii_dec a b) as [->|Hab].
      * rewrite IH. split; intros [r Hr]; exists r.
        -- by rewrite string_app_cons, Hr.
        -- rewrite string_app_cons in Hr. by injection Hr.
      * split; [done|]. intros [r Hr]. rewrite string_app_cons in Hr.
        injection Hr as <- _. done.
Qed.

Lemma string_prefix_trans (p q s : string) :
  String.prefix p q → String.prefix q s → String.prefix p s.
Proof.
  rewrite !string_prefix_app. intros [r ->] [r' ->]. exists (r +:+ r').
  by rewrite string_app_assoc.
Qed.

Lemma string_prefix_cons (a : Ascii.ascii) (p q : string) :
  String.prefix p q → String.prefix (String a p) (String a q).
Proof. cbn [String.prefix]. by destruct (Ascii.ascii_dec a a). Qed.

Lemma pretty_N_go_app (x : N) (s : string) :
  pretty_N_go x s = pretty_N_go x "" +:+ s.
Proof.
  revert s. induction (N.lt_wf_0 x) as [x _ IH]; intros s.
  destruct (decide (x = 0)%N) as [->|Hx].
  - by rewrite !pretty_N_go_0.
  - assert (Hlt : (x `div` 10 < x)%N) by (apply N.div_lt; lia).
    rewrite !(pretty_N_go_step x) by lia.
    rewrite (IH _ Hlt (String _ s)), (IH _ Hlt (String _ "")).
    by rewrite <- string_app_assoc.
Qed.

Lemma pretty_even_odd (channel : nat) :
  ∃ (p : string) (d1 d2 : Ascii.ascii),
    d1 ≠ d2 ∧
    pretty (channel * 2)%nat = p +:+ String d1 "" ∧
    pretty (channel * 2 + 1)%nat = p +:+ String d2 "".
Proof.
  unfold pretty, pretty_nat, pretty, pretty_N.
  destruct (decide (channel = 0)%nat) as [->|Hc].
  - exists "", (pretty_N_char 0), (pretty_N_char 1). done.
  - set (x := N.of_nat (channel * 2)).
    replace (N.of_nat (channel * 2 + 1)) with (x + 1)%N by lia.
    rewrite !decide_False by lia.
    rewrite (pretty_N_go_step x), (pretty_N_go_step (x + 1)) by lia.
    assert (Hq : ((x + 1) `div` 10 = x `div` 10)%N ∧
                 ((x + 1) `mod` 10 = x `mod` 10 + 1)%N).
    { assert (x = 2 * N.of_nat channel)%N as -> by lia.
      pose proof (N.div_mod' (N.of_nat channel) 5) as Hd.
      pose proof (N.mod_lt (N.of_nat channel) 5) as Hm.
      set (q := (N.of_nat channel `div` 5)%N) in *.
      set (r := (N.of_nat channel `mod` 5)%N) in *.
      rewrite Hd.
      assert (H1 : (2 * (5 * q + r) = 2 * r + q * 10)%N) by lia.
      assert (H2 : (2 * (5 * q + r) + 1 = (2 * r + 1) + q * 10)%N) by lia.
      rewrite H2, H1.
      rewrite !N.div_add, !N.Div0.mod_add by lia.
      rewrite !N.div_small, !N.mod_small by lia. lia. }
    destruct Hq as [-> Hm].
    rewrite (pretty_N_go_app _ (String _ "")).
    rewrite (pretty_N_go_app _ (String (pretty_N_char ((x + 1) `mod` 10)) "")).
    eexists _, _, _. split; [|split; reflexivity].
    intros Heq%pretty_N_char_inj; [lia|apply N.mod_lt; lia..].
Qed.

Lemma string_app_inv_head (p s1 s2 : string) :
  p +:+ s1 = p +:+ s2 → s1 = s2.
Proof.
  induction p as [|a p IH]; [done|]. rewrite !string_app_cons.
  intros [= H]. by apply IH.
Qed.

(** X19.  The two banks of one channel never share a name: no string
    starts both with "b<2*channel>" and with "b<2*channel+1>". *)
Theorem banks_of_one_channel_disjoint {C : Type} `{!ChannelNames C}
    (channel : nat) (c : C) (b0 b1 : list string) :
  getChannels channel c = Ok (b0, b1) →
  ∀ n, n ∈ b0 → n ∉ b1.
Proof.
  unfold getChannels.
  destruct (read_channel_names c _ 1 []) as [names|e]; [|done].
  intros [= <- <-] n [Ha _]%list_elem_of_filter [Hb _]%list_elem_of_filter.
  apply string_prefix_app in Ha as [ra Hra].
  apply string_prefix_app in Hb as [rb Hrb].
  destruct (pretty_even_odd channel) as (p & d1 & d2 & Hd & E1 & E2).
  rewrite E1 in Hra. rewrite E2 in Hrb. rewrite Hra in Hrb.
  rewrite <- !string_app_assoc in Hrb.
  apply string_app_inv_head, string_app_inv_head in Hrb.
  cbn in Hrb. by injection Hrb.
Qed.

(** X20.  Banks of different channels can overlap: when the decimal
    numeral of one bank is a prefix of the numeral of another, every name
    of the second bank is in the first (bank "b1" of channel 0 takes all
    the names of bank "b10" of channel 5). *)
Theorem banks_of_channels_overlap {C : Type} `{!ChannelNames C}
    (channel channel' : nat) (c : C) (b0 b1 b0' b1' : list string) :
  getChannels channel c = Ok (b0, b1) →
  getChannels channel' c = Ok (b0', b1') →
  String.prefix (pretty (channel * 2 + 1)%nat) (pretty (channel' * 2)%nat) →
  b0' ⊆ b1.
Proof.
  unfold getChannels.
  destruct (read_channel_names c _ 1 []) as [names|e]; [|done].
  intros [= <- <-] [= <- <-] Hp n [Hn Hin]%list_elem_of_filter.
  apply list_elem_of_filter. split; [|done].
  eapply string_prefix_trans; [|exact Hn].
  by apply string_prefix_cons.
Qed.

End bank_prefixes.

Section channel_listing_witnesses.
Import Py Spec ResistanceManager Examples.

Lemma name_table_lists (l : list string) (e : exn) :
  lists_from (NameTable l e) 1 l.
Proof. intros k name Hk. cbn. by rewrite Hk. Qed.

Lemma name_table_stops (l : list string) (e : exn) :
  get_channel_name (NameTable l e) (1 + length l) = Raise e.
Proof. cbn. by rewrite lookup_ge_None_2. Qed.

Lemma getChannels_name_table (channel : nat) (l : list string) :
  (Z.of_nat (length l) < 99998)%Z →
  getChannels channel (NameTable l DriverError) =
    Ok (filter (λ n, String.prefix (prefix_bank_A channel) n) l,
        filter (λ n, String.prefix (prefix_bank_B channel) n) l).
Proof.
  intros Hlen. unfold getChannels.
  rewrite (read_channel_names_complete _ _ 1 [] l
             (name_table_lists l DriverError));
    [done|lia|right; apply name_table_stops].
Qed.

Lemma getChannels_reads_until_error_witness :
  getChannels 0
    (NameTable ["b0"; "b0r1"; "b1"; "b10r1"; "com0"] DriverError) =
    Ok (filter (λ n, String.prefix (prefix_bank_A 0) n)
          ["b0"; "b0r1"; "b1"; "b10r1"; "com0"],
        filter (λ n, String.prefix (prefix_bank_B 0) n)
          ["b0"; "b0r1"; "b1"; "b10r1"; "com0"]).
Proof.
  apply (getChannels_reads_until_error 0
           (NameTable ["b0"; "b0r1"; "b1"; "b10r1"; "com0"] DriverError)).
  - apply name_table_lists.
  - simpl. lia.
  - apply name_table_stops.
Defined.

Lemma getChannels_banks_sound_witness :
  ∃ names,
    lists_from (NameTable ["b0"; "b0r1"; "b1"; "com0"] DriverError) 1 names ∧
    (Z.of_nat (length names) ≤ 99998)%Z ∧
    filter (λ n, String.prefix (prefix_bank_A 0) n)
      ["b0"; "b0r1"; "b1"; "com0"] `sublist_of` names ∧
    filter (λ n, String.prefix (prefix_bank_B 0) n)
      ["b0"; "b0r1"; "b1"; "com0"] `sublist_of` names ∧
    Forall (λ n, String.prefix (prefix_bank_A 0) n)
      (filter (λ n, String.prefix (prefix_bank_A 0) n)
         ["b0"; "b0r1"; "b1"; "com0"]) ∧
    Forall (λ n, String.prefix (prefix_bank_B 0) n)
      (filter (λ n, String.prefix (prefix_bank_B 0) n)
         ["b0"; "b0r1"; "b1"; "com0"]).
Proof.
  apply (getChannels_banks_sound 0
           (NameTable ["b0"; "b0r1"; "b1"; "com0"] DriverError)).
  apply getChannels_name_table. simpl. lia.
Defined.

Lemma getChannels_propagates_witness :
  getChannels 0 (NameTable ["b0"; "b0r1"] KeyError) = Raise KeyError.
Proof.
  apply (getChannels_propagates 0 (NameTable ["b0"; "b0r1"] KeyError)
           ["b0"; "b0r1"] KeyError).
  - apply name_table_lists.
  - simpl. lia.
  - apply name_table_stops.
  - discriminate.
Defined.

Lemma banks_of_one_channel_disjoint_witness :
  "b10r1" ∉ filter (λ n, String.prefix (prefix_bank_B 5) n)
              ["b10"; "b10r1"; "b11"; "b11r1"].
Proof.
  apply (banks_of_one_channel_disjoint 5
           (NameTable ["b10"; "b10r1"; "b11"; "b11r1"] DriverError)
           (filter (λ n, String.prefix (prefix_bank_A 5) n)
              ["b10"; "b10r1"; "b11"; "b11r1"])).
  - apply getChannels_name_table. simpl. lia.
  - apply list_elem_of_filter. split.
    + vm_compute. exact I.
    + apply elem_of_cons. right. apply elem_of_cons. by left.
Defined.

Lemma banks_of_channels_overlap_witness :
  filter (λ n, String.prefix (prefix_bank_A 5) n)
    ["b0"; "b1"; "b1r1"; "b10"; "b10r1"]
  ⊆ filter (λ n, String.prefix (prefix_bank_B 0) n)
      ["b0"; "b1"; "b1r1"; "b10"; "b10r1"].
Proof.
  apply (banks_of_channels_overlap 0 5
           (NameTable ["b0"; "b1"; "b1r1"; "b10"; "b10r1"] DriverError)
           (filter (λ n, String.prefix (prefix_bank_A 0) n)
              ["b0"; "b1"; "b1r1"; "b10"; "b10r1"]) _ _
           (filter (λ n, String.prefix (prefix_bank_B 5) n)
              ["b0"; "b1"; "b1r1"; "b10"; "b10r1"])).
  - apply getChannels_name_table. simpl. lia.
  - apply getChannels_name_table. simpl. lia.
  - vm_compute. exact I.
Defined.

End channel_listing_witnesses.

Section closing.
Import Py Spec ResistanceManager Examples.
Context {C : Type} `{!Session C}.

Lemma get_banks_in_range_cases (set_iter : gset Qc → list Qc)
    (resistance : Qc) (self : t) :
  valid_set_iter set_iter →
  0 ≤ resistance → resistance ≤ int 16000 →
  (∃ plan, (10 ≤ length (bank_a self))%nat ∧
           (10 ≤ length (bank_b self))%nat ∧
           get_banks_to_close_by_name set_iter resistance self
             = (Ok plan, set_connections plan self)) ∨
  get_banks_to_close_by_name set_iter resistance self
    = (Raise IndexError, self).
Proof.
  intros Hv H0 H16.
  destruct (decide (10 ≤ length (bank_a self))%nat) as [Ha|Ha].
  - destruct (decide (10 ≤ length (bank_b self))%nat) as [Hb|Hb].
    + left. eexists. split; [done|]. split; [done|].
      apply (get_banks_to_close_by_name_plan set_iter resistance self
        (valid_set_iter_elem_of set_iter Hv) H0 H16 Ha Hb).
    + right. apply get_banks_short_layout; [done..|lia].
  - right. apply get_banks_short_layout; [done..|lia].
Qed.

Lemma ni_connect_closes (a b : string) (w w' : world C) :
  connect_closes →
  ni_connect a b w = (Ok (), w') →
  can_connect (card w') a b = Ok PATH_EXISTS ∧
  ∀ x y, can_connect (card w) x y = Ok PATH_EXISTS →
         can_connect (card w') x y = Ok PATH_EXISTS.
Proof.
  intros Hlaw. unfold ni_connect.
  destruct (connect (card w) a b) as [c'|e] eqn:E; [|done].
  intros [= <-]. cbn [card]. by apply (Hlaw (card w)).
Qed.

Lemma for_each_connect_closes (plan : list (string * string))
    (w w' : world C) :
  connect_closes →
  for_each plan (λ '(a, b), ni_connect a b) w = (Ok (), w') →
  all_closed (card w') plan ∧
  ∀ x y, can_connect (card w) x y = Ok PATH_EXISTS →
         can_connect (card w') x y = Ok PATH_EXISTS.
Proof.
  intros Hlaw. revert w. induction plan as [|[a b] plan IH]; intros w;
    cbn [for_each].
  - intros [= <-]. split; [|done]. intros p Hp. by apply elem_of_nil in Hp.
  - intros ([] & w1 & E1 & E2)%bind_Ok.
    apply (ni_connect_closes a b w w1 Hlaw) in E1 as [Hab Hkeep].
    apply IH in E2 as [Hall Hkeep'].
    split.
    + intros p [->|Hp]%elem_of_cons; [by apply Hkeep'|by apply Hall].
    + intros x y Hxy. by apply Hkeep', Hkeep.
Qed.

Lemma for_each_connect_ok (plan : list (string * string)) (w : world C) :
  reliable_connect →
  (for_each plan (λ '(a, b), ni_connect a b) w).1 = Ok ().
Proof.
  intros Hc. revert w. induction plan as [|[a b] plan IH]; intros w;
    cbn [for_each]; [done|].
  unfold mbind, M_bind, ni_connect.
  destruct (Hc (card w) a b) as [c' ->]. apply IH.
Qed.

Lemma clearWholeChannel_ok (self : t) (w : world C) :
  reliable_driver →
  bank_a self ≠ [] → bank_b self ≠ [] →
  (clearWholeChannel self w).1 = Ok ().
Proof.
  intros Hrel HA HB. rewrite (clearWholeChannel_result self w Hrel).
  destruct (bank_a self); [done|]. by destruct (bank_b self).
Qed.

Lemma setResistance_ok (set_iter : gset Qc → list Qc) (resistance : Qc)
    (self : t) (w : world C) :
  reliable_driver → reliable_connect →
  valid_set_iter set_iter →
  0 ≤ resistance → resistance ≤ int 16000 →
  (10 ≤ length (bank_a self))%nat → (10 ≤ length (bank_b self))%nat →
  (setResistance set_iter resistance (self, w)).1 = Ok ().
Proof.
  intros Hr Hc Hv H0 H16 Ha Hb.
  unfold setResistance, zoom_l, zoom_r, mbind, M_bind. cbn [fst snd].
  pose proof (clearWholeChannel_ok self w Hr) as Hclear.
  destruct (clearWholeChannel self w) as [[[]|e] w1]; cbn [fst snd] in *.
  - rewrite (get_banks_to_close_by_name_plan set_iter resistance self
      (valid_set_iter_elem_of set_iter Hv) H0 H16 Ha Hb).
    cbn [fst snd].
    match goal with
    | |- context [for_each ?plan ?body w1] =>
        pose proof (for_each_connect_ok plan w1 Hc) as Hp;
        destruct (for_each plan body w1) as [o w2]
    end.
    exact Hp.
  - exfalso. assert (Ok () = @Raise unit e) as [=].
    symmetry. apply Hclear.
    + intros E. rewrite E in Ha. cbn in Ha. lia.
    + intros E. rewrite E in Hb. cbn in Hb. lia.
Qed.

(** X21.  On a driver whose connect closes its pair and removes no path,
    a normal return of [setResistance] with an in-range value leaves a
    path on every pair of the plan, which is the list recorded in
    [self.connections]. *)
Theorem setResistance_closes_plan (set_iter : gset Qc → list Qc)
    (resistance : Qc) (self : t) (w : world C) :
  connect_closes →
  valid_set_iter set_iter →
  0 ≤ resistance → resistance ≤ int 16000 →
  (setResistance set_iter resistance (self, w)).1 = Ok () →
  all_closed (card (setResistance set_iter resistance (self, w)).2.2)
    (connections (setResistance set_iter resistance (self, w)).2.1).
Proof.
  intros Hlaw Hv H0 H16.
  unfold setResistance, zoom_l, zoom_r, mbind, M_bind. cbn [fst snd].
  destruct (clearWholeChannel self w) as [[[]|e] w1]; cbn [fst snd]; [|done].
  destruct (get_banks_in_range_cases set_iter resistance self Hv H0 H16)
    as [(plan & _ & _ & ->)| ->]; [|done].
  cbn [fst snd].
  destruct (for_each plan _ w1) as [[[]|e] w2] eqn:E; cbn [fst snd]; [|done].
  intros _. cbn [connections set_connections].
  by apply (for_each_connect_closes plan w1 w2 Hlaw).
Qed.

(** X22.  On a driver none of whose calls raises, [setResistance] with
    an in-range value on an instance whose two layouts have at least ten
    channels returns normally. *)
Theorem setResistance_succeeds (set_iter : gset Qc → list Qc)
    (resistance : Qc) (self : t) (w : world C) :
  reliable_driver → reliable_connect →
  valid_set_iter set_iter →
  0 ≤ resistance → resistance ≤ int 16000 →
  (10 ≤ length (bank_a self))%nat → (10 ≤ length (bank_b self))%nat →
  (setResistance set_iter resistance (self, w)).1 = Ok ().
Proof. apply setResistance_ok. Qed.

End closing.

Section matrix_properties.
Import Py Spec ResistanceManager Examples.
Context {C : Type} `{!Session C}.

(** X23.  [SwitchManager.disconnect], which compares the capability
    itself, and the [checkAndDisconnect] of [clearWholeChannel], which
    compares its integer value, behave the same on every card. *)
Theorem SwitchManager_disconnect_is_checkAndDisconnect (row col : string)
    (w : world C) :
  SwitchManager.disconnect row col w = checkAndDisconnect row col w.
Proof.
  unfold SwitchManager.disconnect, checkAndDisconnect, mbind, M_bind,
    ni_can_connect.
  destruct (can_connect (card w) row col) as [st|e]; [|done].
  destruct (decide (st = PATH_EXISTS)) as [->|Hst].
  - by rewrite decide_True.
  - rewrite decide_False; [done|]. by rewrite value_PATH_EXISTS.
Qed.

(** X24.  [SwitchManager.connect] is idempotent on a driver whose
    connect closes its pair: after a normal return, connecting the same
    pair again only queries the driver, issues no connect and leaves the
    card as it is. *)
Theorem SwitchManager_connect_idempotent (row col : string)
    (w w1 : world C) :
  connect_closes →
  SwitchManager.connect row col w = (Ok (), w1) →
  SwitchManager.connect row col w1 =
    (Ok (),
     World (card w1)
       (trace w1 ++ [CanConnect row col (Ok PATH_EXISTS)])).
Proof.
  intros Hlaw. unfold SwitchManager.connect, mbind, M_bind, ni_can_connect.
  destruct (can_connect (card w) row col) as [st|e] eqn:Hq; [|done].
  assert (Hpath : (if decide (st = PATH_EXISTS) then mret () else
                   ni_connect row col)
                  (World (card w) (trace w ++ [CanConnect row col (Ok st)]))
                  = (Ok (), w1) →
                  can_connect (card w1) row col = Ok PATH_EXISTS).
  { destruct (decide (st = PATH_EXISTS)) as [->|Hst].
    - by intros [= <-].
    - intros E. by apply (ni_connect_closes row col _ _ Hlaw) in E as [? _]. }
  intros E%Hpath. rewrite E. by rewrite decide_True.
Qed.

End matrix_properties.

Section matrix_listing.
Import Py Spec ResistanceManager Examples.
Context {C : Type} `{!ChannelNames C}.

(** X25.  The column and row lists of [SwitchManager.getChannels] hold
    only names the card listed, in the card's order, and share no name. *)
Theorem SwitchManager_getChannels_sound (c : C) (columns rows : list string) :
  SwitchManager.getChannels c = Ok (columns, rows) →
  ∃ names,
    lists_from c 1 names ∧
    columns `sublist_of` names ∧ rows `sublist_of` names ∧
    ∀ n, n ∈ columns → n ∉ rows.
Proof.
  unfold SwitchManager.getChannels.
  destruct (read_channel_names c _ 1 []) as [out|e] eqn:E; [|done].
  apply read_channel_names_sound in E as (names & -> & Hlen & Hlist & _).
  intros [= <- <-]. exists names. cbn [app].
  split_and!; [done|apply sublist_filter..|].
  intros n [Hc _]%list_elem_of_filter [Hr _]%list_elem_of_filter.
  destruct n as [|a n]; [done|]. cbn [String.prefix] in Hc, Hr.
  destruct (Ascii.ascii_dec _ a) as [<-|]; [|done].
  by destruct (Ascii.ascii_dec _ _).
Qed.

End matrix_listing.

Section closing_witnesses.
Import Py Spec ResistanceManager Examples.

Lemma relays_reliable_connect : @reliable_connect relays _.
Proof. intros c a b. eexists. reflexivity. Qed.

Lemma relays_connect_closes : @connect_closes relays _.
Proof.
  intros c c' a b [= <-]. cbn. split.
  - rewrite bool_decide_eq_true_2; [done|]. apply elem_of_cons. by left.
  - intros x y Hxy. case_bool_decide as Hin; [|done].
    rewrite bool_decide_eq_true_2; [done|]. apply elem_of_cons. by right.
Qed.

Lemma in_range_67 : 0 ≤ int 67 ∧ int 67 ≤ int 16000.
Proof.
  split; apply (bool_decide_unpack (_ ≤ _)); vm_compute; exact I.
Qed.

Lemma setResistance_closes_plan_witness :
  all_closed
    (card (setResistance ascending (int 67)
             (rm0, World (Relays []) [])).2.2)
    (connections (setResistance ascending (int 67)
                    (rm0, World (Relays []) [])).2.1).
Proof.
  apply (setResistance_closes_plan ascending (int 67) rm0
           (World (Relays []) [])).
  - exact relays_connect_closes.
  - exact valid_ascending.
  - exact (proj1 in_range_67).
  - exact (proj2 in_range_67).
  - apply (setResistance_ok ascending (int 67) rm0 (World (Relays []) [])).
    + exact relays_reliable.
    + exact relays_reliable_connect.
    + exact valid_ascending.
    + exact (proj1 in_range_67).
    + exact (proj2 in_range_67).
    + simpl. lia.
    + simpl. lia.
Defined.

Lemma setResistance_succeeds_witness :
  (setResistance descending (int 67)
     (rm0, World (Relays [("b0", "b0r1")]) [])).1 = Ok ().
Proof.
  apply (setResistance_succeeds descending (int 67) rm0
           (World (Relays [("b0", "b0r1")]) [])).
  - exact relays_reliable.
  - exact relays_reliable_connect.
  - exact valid_descending.
  - exact (proj1 in_range_67).
  - exact (proj2 in_range_67).
  - simpl. lia.
  - simpl. lia.
Defined.

Lemma SwitchManager_connect_idempotent_witness :
  SwitchManager.connect "r7" "c38"
    (World (Relays [("r7", "c38")])
       [CanConnect "r7" "c38" (Ok PATH_AVAILABLE); Connect "r7" "c38"]) =
  (Ok (),
   World (Relays [("r7", "c38")])
     ([CanConnect "r7" "c38" (Ok PATH_AVAILABLE); Connect "r7" "c38"] ++
      [CanConnect "r7" "c38" (Ok PATH_EXISTS)])).
Proof.
  apply (SwitchManager_connect_idempotent "r7" "c38"
           (World (Relays []) [])).
  - exact relays_connect_closes.
  - reflexivity.
Defined.

Lemma SwitchManager_getChannels_sound_witness :
  ∃ names,
    lists_from (NameTable ["c0"; "c1"; "r0"; "com"] DriverError) 1 names ∧
    filter (λ n, String.prefix "c" n) ["c0"; "c1"; "r0"; "com"]
      `sublist_of` names ∧
    filter (λ n, String.prefix "r" n) ["c0"; "c1"; "r0"; "com"]
      `sublist_of` names ∧
    ∀ n, n ∈ filter (λ n, String.prefix "c" n) ["c0"; "c1"; "r0"; "com"] →
         n ∉ filter (λ n, String.prefix "r" n) ["c0"; "c1"; "r0"; "com"].
Proof.
  apply (SwitchManager_getChannels_sound
           (NameTable ["c0"; "c1"; "r0"; "com"] DriverError)).
  unfold SwitchManager.getChannels.
  rewrite (read_channel_names_complete _ _ 1 [] ["c0"; "c1"; "r0"; "com"]
             (name_table_lists _ DriverError));
    [done|simpl; lia|right; apply name_table_stops].
Defined.

End closing_witnesses.
